(** * gridplayer: the software-decoded frame transport
      (src/gridplayer/widgets/video_frame_vlc_sw.py)

    A shallow embedding of the four classes of the module: the decoder bridge
    [ImageDecoder], the slot table of [InstanceProcessVLCSW], the worker
    [PlayerProcessSingleVLCSW] and the render side [VideoDriverVLCSW].

    Python objects are records, attribute writes are record updates, a method
    is a program in a small monad [prog] that threads the object, logs the
    calls made on collaborators and can raise a Python exception.  An
    exception keeps the writes made before it, as in Python. *)

From Stdlib Require Import ZArith Strings.Byte.
From stdpp Require Import base option list strings gmap.

Local Open Scope Z_scope.

(** ** Exceptions, observable calls, and the method monad *)

Inductive exn : Type :=
| StopIteration
| ValueError
| AttributeError
| TypeError
| ArgumentError.

#[global] Instance exn_eq_dec : EqDecision exn.
Proof. solve_decision. Defined.

#[global] Instance byte_eq_dec : EqDecision Byte.byte := Byte.byte_eq_dec.

(** What a method does to the world outside its own object.  The base
    classes, libvlc and Qt are not part of the module: a call into them is
    logged, with its arguments, and nothing is assumed about its effect. *)
Inductive event : Type :=
| SetStopped                       (* self._stopped = True *)
| LockAcquire                      (* lock.acquire() *)
| LockRelease                      (* lock.release(), also when it raises *)
| ReadHead                         (* bytes(memory.buf[:1024]) *)
| FrameReady                       (* self._frame_ready_cb() *)
| Allocate (size : Z)              (* shared_memory.allocate(size) *)
| Close                            (* shared_memory.close() *)
| VideoSetCallbacks                (* media_player.video_set_callbacks(lock_cb, unlock_cb, None, None) *)
| VideoSetFormat (chroma : string) (width height pitch : Z)
| CmdSend (cmd : string) (args : list string)
| CmdSendInitFrame (width height : Z)   (* cmd_send("init_frame", width, height) *)
| Super (method : string)          (* super().method(...) *)
| BaseStop                         (* self.stop(), inherited *)
| BaseStart                        (* self.start(), inherited: starts the worker's thread *)
| ReleaseCallback (player_id : string)
| CmdLoopTerminate
| LogDebug (msg : string)
| LogWarning (msg : string)
| MakeImage (width height : Z)     (* QImage(buf, width, height, Format_RGB32) *)
| EmitSetDummyFrame
| EmitImageReady
| PlayerCleanup                    (* self.player.cleanup() *).

#[global] Instance event_eq_dec : EqDecision event.
Proof. solve_decision. Defined.

Inductive outcome (A : Type) : Type :=
| Returned (a : A)
| Raised (e : exn).
Arguments Returned {A} a.
Arguments Raised {A} e.

Record result (S A : Type) : Type := Result
  { res_out : outcome A; res_log : list event; res_state : S }.
Arguments Result {S A} _ _ _.
Arguments res_out {S A} _.
Arguments res_log {S A} _.
Arguments res_state {S A} _.

Definition prog (S A : Type) : Type := S -> result S A.

Definition ret {S A} (a : A) : prog S A := fun s => Result (Returned a) [] s.

Definition bind {S A B} (m : prog S A) (k : A -> prog S B) : prog S B :=
  fun s =>
    match m s with
    | Result (Returned a) log s' =>
        match k a s' with
        | Result out log' s'' => Result out (log ++ log') s''
        end
    | Result (Raised e) log s' => Result (Raised e) log s'
    end.

Definition raise {S A} (e : exn) : prog S A := fun s => Result (Raised e) [] s.
Definition emit {S} (ev : event) : prog S unit := fun s => Result (Returned tt) [ev] s.
Definition get {S} : prog S S := fun s => Result (Returned s) [] s.
Definition modify {S} (f : S -> S) : prog S unit := fun s => Result (Returned tt) [] (f s).

(** [try: m finally: h] -- [h] runs on every way out of [m]; the outcome of
    [m] stands unless [h] itself raises. *)
Definition finally {S A} (m : prog S A) (h : prog S unit) : prog S A :=
  fun s =>
    match m s with
    | Result out log s' =>
        match h s' with
        | Result (Returned _) log' s'' => Result out (log ++ log') s''
        | Result (Raised e) log' s'' => Result (Raised e) (log ++ log') s''
        end
    end.

(** [try: m except e: h]. *)
Definition try_except {S A} (m : prog S A) (e : exn) (h : prog S A) : prog S A :=
  fun s =>
    match m s with
    | Result (Returned a) log s' => Result (Returned a) log s'
    | Result (Raised e') log s' =>
        if decide (e' = e) then
          match h s' with
          | Result out log' s'' => Result out (log ++ log') s''
          end
        else Result (Raised e') log s'
    end.

(** [with contextlib.suppress(e): m]. *)
Definition suppress {S} (e : exn) (m : prog S unit) : prog S unit :=
  try_except m e (ret tt).

(** Run a method of a sub-object stored in the enclosing object. *)
Definition zoom {S T A} (proj : S -> T) (inj : T -> S -> S) (m : prog T A) : prog S A :=
  fun s =>
    match m (proj s) with
    | Result out log t' => Result out log (inj t' s)
    end.

Declare Scope prog_scope.
Delimit Scope prog_scope with prog.
Notation "x <- m ;; k" := (bind m (fun x => k))
  (at level 100, m at next level, right associativity) : prog_scope.
Notation "m ;; k" := (bind m (fun _ => k))
  (at level 100, right associativity) : prog_scope.
Local Open Scope prog_scope.

(** ** multiprocessing.Lock and the shared channel *)

(** A [multiprocessing.Lock]: held or free.  Waiting for a held lock is not
    visible in a sequential run, so [acquire] returns with the lock held.
    Releasing a free lock raises [ValueError]. *)
Definition lock_acquire : prog bool unit :=
  emit LockAcquire ;; modify (fun _ => true).

Definition lock_release : prog bool unit :=
  emit LockRelease ;;
  held <- get ;;
  if held : bool then modify (fun _ => false) else raise ValueError.

(** Modelled from the spec: the class [SafeSharedMemory] of
    gridplayer/multiprocess/safe_shared_memory.py, which is not among the
    sources: "a named cross-process memory segment plus an associated
    mutual-exclusion lock".  The source builds it as
    [SafeSharedMemory(name, lock)] and reads its [lock], [memory] and [ptr];
    [memory] is [None] until allocated and again after [close]. *)
Record SafeSharedMemory : Type := MkSafeSharedMemory
  { name : string;
    lock : bool;
    memory : option (list Byte.byte) }.

Definition set_lock (b : bool) (m : SafeSharedMemory) : SafeSharedMemory :=
  MkSafeSharedMemory (name m) b (memory m).
Definition set_memory (o : option (list Byte.byte)) (m : SafeSharedMemory) : SafeSharedMemory :=
  MkSafeSharedMemory (name m) (lock m) o.

Definition SafeSharedMemory_init (player_id : string) (held : bool) : SafeSharedMemory :=
  MkSafeSharedMemory player_id held None.

Definition on_lock {A} (m : prog bool A) : prog SafeSharedMemory A :=
  zoom lock set_lock m.

(** Modelled from the spec: [SafeSharedMemory.allocate] of the same missing
    file.  "allocate(size) reserves a named memory region of size bytes". *)
Definition allocate (size : Z) : prog SafeSharedMemory unit :=
  emit (Allocate size) ;;
  modify (set_memory (Some (replicate (Z.to_nat size) Byte.x00))).

(** Modelled from the spec: [SafeSharedMemory.close] of the same missing
    file.  "close() releases OS-level resources and is safe to call multiple
    times"; afterwards the region is gone, so that reading the buffer fails
    with the "already released" condition. *)
Definition close : prog SafeSharedMemory unit :=
  emit Close ;; modify (set_memory None).

(** Modelled from the spec: reading [shared_memory.memory.buf].  "accessing
    the buffer after close() must fail in a way callers can detect", "a
    distinct already released condition"; the source catches it as
    [AttributeError], the failure of reading [buf] off a [memory] that is
    [None]. *)
Definition memory_buf : prog SafeSharedMemory (list Byte.byte) :=
  m <- get ;;
  match memory m with
  | Some buf => ret buf
  | None => raise AttributeError
  end.

(** Modelled from the spec: the context manager [releasing(lock)] of the same
    missing file.  The guarded block runs and the lock is released on every
    way out; "release() must be safe to call even if the lock is already
    released", so the release of a free lock is tolerated here.  [the_lock]
    says where the lock lives in the enclosing object. *)
Definition releasing {S A} (the_lock : prog bool unit -> prog S unit)
    (body : prog S A) : prog S A :=
  finally body (the_lock (suppress ValueError lock_release)).

(** Modelled from the spec: [with shared_memory:] on the render side, the
    scoped "acquire()/release()" of the channel. *)
Definition with_shared_memory {A} (body : prog SafeSharedMemory A) : prog SafeSharedMemory A :=
  on_lock lock_acquire ;; releasing on_lock body.

(** The native decoder writing a frame through [planes[0]]: the region keeps
    its size, [data] overwrites it from offset 0. *)
Definition overwrite (buf data : list Byte.byte) : list Byte.byte :=
  take (length buf) data ++ drop (length data) buf.

Definition native_write (data : list Byte.byte) (m : SafeSharedMemory) : SafeSharedMemory :=
  set_memory ((fun buf => overwrite buf data) <$> memory m) m.

(** ** class ImageDecoder *)

Record ImageDecoder : Type := MkImageDecoder
  { is_paused : bool;
    _stopped : bool;
    _row_size : option Z;
    _width : option Z;
    _height : option Z;
    _shared_memory : SafeSharedMemory;
    _prev_frame_head : option (list Byte.byte) }.

Definition set_is_paused (b : bool) (d : ImageDecoder) : ImageDecoder :=
  MkImageDecoder b (_stopped d) (_row_size d) (_width d) (_height d)
    (_shared_memory d) (_prev_frame_head d).
Definition set_stopped (b : bool) (d : ImageDecoder) : ImageDecoder :=
  MkImageDecoder (is_paused d) b (_row_size d) (_width d) (_height d)
    (_shared_memory d) (_prev_frame_head d).
Definition set_row_size (o : option Z) (d : ImageDecoder) : ImageDecoder :=
  MkImageDecoder (is_paused d) (_stopped d) o (_width d) (_height d)
    (_shared_memory d) (_prev_frame_head d).
Definition set_width (o : option Z) (d : ImageDecoder) : ImageDecoder :=
  MkImageDecoder (is_paused d) (_stopped d) (_row_size d) o (_height d)
    (_shared_memory d) (_prev_frame_head d).
Definition set_height (o : option Z) (d : ImageDecoder) : ImageDecoder :=
  MkImageDecoder (is_paused d) (_stopped d) (_row_size d) (_width d) o
    (_shared_memory d) (_prev_frame_head d).
Definition set_shared_memory (m : SafeSharedMemory) (d : ImageDecoder) : ImageDecoder :=
  MkImageDecoder (is_paused d) (_stopped d) (_row_size d) (_width d) (_height d)
    m (_prev_frame_head d).
Definition set_prev_frame_head (o : option (list Byte.byte)) (d : ImageDecoder) : ImageDecoder :=
  MkImageDecoder (is_paused d) (_stopped d) (_row_size d) (_width d) (_height d)
    (_shared_memory d) o.

(** [ImageDecoder(shared_memory, frame_ready_cb)].  The worker always passes
    its [ready_signal] as [frame_ready_cb]; calling it is the event
    [FrameReady]. *)
Definition ImageDecoder_init (shared_memory : SafeSharedMemory) : ImageDecoder :=
  {| is_paused := true;
     _stopped := false;
     _row_size := None;
     _width := None;
     _height := None;
     _shared_memory := shared_memory;
     _prev_frame_head := None |}.

Definition on_shared_memory {A} (m : prog SafeSharedMemory A) : prog ImageDecoder A :=
  zoom _shared_memory set_shared_memory m.

(** [self._shared_memory.lock] *)
Definition decoder_lock {A} (m : prog bool A) : prog ImageDecoder A :=
  on_shared_memory (on_lock m).

(** Reading a numeric attribute that may still be [None]. *)
Definition number {S} (o : option Z) : prog S Z :=
  match o with
  | Some z => ret z
  | None => raise TypeError
  end.

Definition set_frame (width height : Z) : prog ImageDecoder unit :=
  modify (set_width (Some width)) ;;
  modify (set_height (Some height)) ;;
  d <- get ;;
  w <- number (_width d) ;;
  modify (set_row_size (Some (w * 4))) ;;
  d <- get ;;
  h <- number (_height d) ;;
  r <- number (_row_size d) ;;
  let buf_size := h * r in
  on_shared_memory (allocate buf_size).

(** [video_set_format] is a ctypes call: a [None] argument is refused. *)
Definition attach_media_player : prog ImageDecoder unit :=
  emit VideoSetCallbacks ;;
  d <- get ;;
  match _width d, _height d, _row_size d with
  | Some w, Some h, Some r => emit (VideoSetFormat "RV32" w h r)
  | _, _, _ => raise ArgumentError
  end.

Definition libvlc_lock_callback : prog ImageDecoder unit :=
  decoder_lock lock_acquire.

Definition _is_frame_changed : prog ImageDecoder bool :=
  buf <- on_shared_memory memory_buf ;;
  emit ReadHead ;;
  let new_frame_head := take 1024 buf in
  d <- get ;;
  if decide (Some new_frame_head = _prev_frame_head d) then ret false
  else
    modify (set_prev_frame_head (Some new_frame_head)) ;;
    ret true.

Definition libvlc_unlock_callback : prog ImageDecoder unit :=
  releasing (@decoder_lock unit)
    (d <- get ;;
     if _stopped d then ret tt
     else
       (* self.is_paused and not self._is_frame_changed() *)
       unchanged <- (if is_paused d
                     then changed <- _is_frame_changed ;; ret (negb changed)
                     else ret false) ;;
       if unchanged : bool then ret tt
       else emit FrameReady).

Definition stop : prog ImageDecoder unit :=
  emit SetStopped ;;
  modify (set_stopped true) ;;
  suppress ValueError (decoder_lock lock_release) ;;
  on_shared_memory close.

(** The decoder thread delivering one frame: lock callback, the native
    write, unlock callback. *)
Definition decoder_write (data : list Byte.byte) : prog ImageDecoder unit :=
  modify (fun d => set_shared_memory (native_write data (_shared_memory d)) d).

Definition deliver_frame (data : list Byte.byte) : prog ImageDecoder unit :=
  libvlc_lock_callback ;;
  decoder_write data ;;
  libvlc_unlock_callback.

(** ** class InstanceProcessVLCSW: the slot table *)

(** [Array("c", n)] seen through [.value]: the bytes up to the first NUL.
    Assigning more than [n] bytes raises [ValueError]. *)
Record c_array : Type := MkCArray
  { arr_size : nat;
    arr_value : string }.

Fixpoint until_nul (s : string) : string :=
  match s with
  | EmptyString => EmptyString
  | String c rest => if Ascii.eqb c Ascii.zero then EmptyString else String c (until_nul rest)
  end.

Definition Array_c (n : nat) : c_array := MkCArray n "".

Definition c_array_set_value (v : string) (a : c_array) : option c_array :=
  if decide (String.length v <= arr_size a)%nat
  then Some (MkCArray (arr_size a) (until_nul v))
  else None.

(** A player id is held as the byte string of its UTF-8 encoding, so
    [str.encode()] is the identity on this representation. *)
Definition encode (player_id : string) : string := player_id.

(** One entry of [self._memory_locks]. *)
Record slot : Type := MkSlot
  { ml_lock : bool;
    ml_is_busy : Z;
    ml_player_id : c_array }.

Definition set_is_busy (v : Z) (ml : slot) : slot :=
  MkSlot (ml_lock ml) v (ml_player_id ml).
Definition set_player_id (a : c_array) (ml : slot) : slot :=
  MkSlot (ml_lock ml) (ml_is_busy ml) a.

(** The handle [SafeSharedMemory(player_id, player_lock["lock"])] as the pool
    keeps it: the channel name and the slot whose lock it shares. *)
Record channel_handle : Type := MkHandle
  { h_name : string;
    h_slot : nat }.

Record InstanceProcessVLCSW : Type := MkInstance
  { players_per_instance : nat;
    _memory_locks : list slot;
    _players_shared_data : gmap string channel_handle }.

Definition set_memory_locks (t : list slot) (p : InstanceProcessVLCSW) : InstanceProcessVLCSW :=
  MkInstance (players_per_instance p) t (_players_shared_data p).
Definition set_players_shared_data (m : gmap string channel_handle)
    (p : InstanceProcessVLCSW) : InstanceProcessVLCSW :=
  MkInstance (players_per_instance p) (_memory_locks p) m.

(** [PLAYER_ID_LENGTH] comes from gridplayer/params/static.py, which is not
    among the sources: it is a parameter of the construction. *)
Definition InstanceProcessVLCSW_init (PLAYER_ID_LENGTH players_per_instance : nat) :
    InstanceProcessVLCSW :=
  {| players_per_instance := players_per_instance;
     _memory_locks :=
       replicate players_per_instance
         {| ml_lock := false;
            ml_is_busy := 0;
            ml_player_id := Array_c (PLAYER_ID_LENGTH * 2) |};
     _players_shared_data := ∅ |}.

(** [next(ml for ml in self._memory_locks if ml["player_id"].value == ...)]:
    the slot found and its place in the table. *)
Definition get_player_lock (player_id : string) : prog InstanceProcessVLCSW (nat * slot) :=
  p <- get ;;
  match list_find (fun ml => arr_value (ml_player_id ml) = encode player_id) (_memory_locks p) with
  | Some found => ret found
  | None => raise StopIteration
  end.

Definition get_player_shared_memory (player_id : string) :
    prog InstanceProcessVLCSW channel_handle :=
  player_lock <- get_player_lock player_id ;;
  ret (MkHandle player_id (fst player_lock)).

(** An assignment through the reference [player_lock]: the slot at its place
    in the table is replaced. *)
Definition store_slot (i : nat) (ml : slot) : prog InstanceProcessVLCSW unit :=
  modify (fun p => set_memory_locks (<[i:=ml]> (_memory_locks p)) p).

Definition init_player_shared_data (player_id : string) : prog InstanceProcessVLCSW unit :=
  p <- get ;;
  match list_find (fun ml => ml_is_busy ml = 0) (_memory_locks p) with
  | None => raise StopIteration
  | Some (i, player_lock) =>
      let player_lock := set_is_busy 1 player_lock in
      store_slot i player_lock ;;
      match c_array_set_value (encode player_id) (ml_player_id player_lock) with
      | None => raise ValueError
      | Some a =>
          store_slot i (set_player_id a player_lock) ;;
          h <- get_player_shared_memory player_id ;;
          modify (fun p => set_players_shared_data (<[player_id:=h]> (_players_shared_data p)) p)
      end
  end.

Definition release_player_shared_data (player_id : string) : prog InstanceProcessVLCSW unit :=
  found <- get_player_lock player_id ;;
  let '(i, player_lock) := found in
  match c_array_set_value "" (ml_player_id player_lock) with
  | None => raise ValueError
  | Some a =>
      let player_lock := set_player_id a player_lock in
      store_slot i player_lock ;;
      store_slot i (set_is_busy 0 player_lock)
  end.

(** Sequences of claims and releases. *)
Inductive pool_op : Type :=
| Claim (player_id : string)
| Release (player_id : string).

Definition pool_step (op : pool_op) : prog InstanceProcessVLCSW unit :=
  match op with
  | Claim player_id => init_player_shared_data player_id
  | Release player_id => release_player_shared_data player_id
  end.

Fixpoint pool_run (ops : list pool_op) : prog InstanceProcessVLCSW unit :=
  match ops with
  | [] => ret tt
  | op :: rest => pool_step op ;; pool_run rest
  end.

(** The invariant of the slot table, as the specification words it. *)
Definition busy (ml : slot) : Prop := ml_is_busy ml = 1.

#[global] Instance busy_dec ml : Decision (busy ml).
Proof. unfold busy. apply _. Defined.

Definition busy_count (t : list slot) : nat := length (filter busy t).

Definition distinct_owners (t : list slot) : Prop :=
  ∀ i j a b,
    t !! i = Some a -> t !! j = Some b ->
    busy a -> busy b ->
    arr_value (ml_player_id a) = arr_value (ml_player_id b) ->
    i = j.

Definition empty_iff_free (t : list slot) : Prop :=
  ∀ ml, ml ∈ t -> arr_value (ml_player_id ml) = "" <-> ml_is_busy ml = 0.

Definition table_invariant (p : InstanceProcessVLCSW) : Prop :=
  distinct_owners (_memory_locks p)
  ∧ (busy_count (_memory_locks p) <= players_per_instance p)%nat
  ∧ empty_iff_free (_memory_locks p).

(** A condition on the table in which each operation of a sequence starts. *)
Fixpoint holds_along (P : pool_op -> InstanceProcessVLCSW -> Prop)
    (ops : list pool_op) (p : InstanceProcessVLCSW) : Prop :=
  match ops with
  | [] => True
  | op :: rest => P op p ∧ holds_along P rest (res_state (pool_step op p))
  end.

(** A claim is made with the id of a new player: not empty, and not the id
    of a slot that is busy at that moment. *)
Definition fresh_id (player_id : string) (p : InstanceProcessVLCSW) : Prop :=
  player_id ≠ "" ∧
  Forall (fun ml => busy ml -> arr_value (ml_player_id ml) ≠ encode player_id)
    (_memory_locks p).

Definition fresh_claims : list pool_op -> InstanceProcessVLCSW -> Prop :=
  holds_along (fun op p =>
    match op with
    | Claim player_id => fresh_id player_id p
    | Release _ => True
    end).

(** No claim is made of a table whose slots are all busy. *)
Definition within_capacity : list pool_op -> InstanceProcessVLCSW -> Prop :=
  holds_along (fun op p =>
    match op with
    | Claim _ => (busy_count (_memory_locks p) < players_per_instance p)%nat
    | Release _ => True
    end).

Definition completed {S} (r : result S unit) : Prop := res_out r = Returned tt.

(** ** class PlayerProcessSingleVLCSW: the worker *)

(** [media_track] and [media_input] are attributes kept by the base class
    [VlcPlayerThreaded]; of the track only [video_dimensions] is used, and
    [None] is the track that is not there yet. *)
Record PlayerProcessSingleVLCSW : Type := MkPlayer
  { player_id : string;
    shared_memory : SafeSharedMemory;
    decoder : option ImageDecoder;
    _is_decoder_initialized : bool;
    _media_options : list string;
    media_track : option (Z * Z);
    media_input : string }.

Definition set_shm (m : SafeSharedMemory) (w : PlayerProcessSingleVLCSW) :=
  MkPlayer (player_id w) m (decoder w) (_is_decoder_initialized w) (_media_options w)
    (media_track w) (media_input w).
Definition set_decoder (d : option ImageDecoder) (w : PlayerProcessSingleVLCSW) :=
  MkPlayer (player_id w) (shared_memory w) d (_is_decoder_initialized w) (_media_options w)
    (media_track w) (media_input w).
Definition set_is_decoder_initialized (b : bool) (w : PlayerProcessSingleVLCSW) :=
  MkPlayer (player_id w) (shared_memory w) (decoder w) b (_media_options w)
    (media_track w) (media_input w).
Definition set_media_track (t : option (Z * Z)) (w : PlayerProcessSingleVLCSW) :=
  MkPlayer (player_id w) (shared_memory w) (decoder w) (_is_decoder_initialized w)
    (_media_options w) t (media_input w).
Definition set_media_input (m : string) (w : PlayerProcessSingleVLCSW) :=
  MkPlayer (player_id w) (shared_memory w) (decoder w) (_is_decoder_initialized w)
    (_media_options w) (media_track w) m.

(** [PlayerProcessSingleVLCSW(player_id, release_callback, init_data)], with
    the media options the base class starts from. *)
Definition PlayerProcessSingleVLCSW_init (player_id : string) (shared_memory : SafeSharedMemory)
    (base_media_options : list string) : PlayerProcessSingleVLCSW :=
  {| player_id := player_id;
     shared_memory := shared_memory;
     decoder := None;
     _is_decoder_initialized := false;
     _media_options := base_media_options ++ ["avcodec-hw=none"];
     media_track := None;
     media_input := "" |}.

(** [self.decoder.method(...)].  The decoder holds the very object that
    [self.shared_memory] names, so what the method does to the channel shows
    in both. *)
Definition on_decoder {A} (m : prog ImageDecoder A) : prog PlayerProcessSingleVLCSW A :=
  fun w =>
    match decoder w with
    | None => Result (Raised AttributeError) [] w
    | Some d =>
        zoom (fun w => set_shared_memory (shared_memory w) d)
             (fun d' w => set_decoder (Some d') (set_shm (_shared_memory d') w))
             m w
    end.

Definition init_player : prog PlayerProcessSingleVLCSW unit :=
  emit (Super "init_player") ;;
  w <- get ;;
  modify (set_decoder (Some (ImageDecoder_init (shared_memory w)))).

Definition ready_signal : prog PlayerProcessSingleVLCSW unit :=
  emit (CmdSend "process_image" []).

Definition cleanup : prog PlayerProcessSingleVLCSW unit :=
  emit (Super "cleanup") ;;
  on_decoder stop ;;
  w <- get ;;
  emit (ReleaseCallback (player_id w)).

Definition cleanup_final : prog PlayerProcessSingleVLCSW unit :=
  emit CmdLoopTerminate.

Definition _init_video_decoder : prog PlayerProcessSingleVLCSW unit :=
  modify (set_is_decoder_initialized true) ;;
  w <- get ;;
  match media_track w with
  | None => raise AttributeError
  | Some (width, height) =>
      on_decoder (set_frame width height) ;;
      on_decoder attach_media_player ;;
      emit (CmdSendInitFrame width height)
  end.

Definition _restart_playback : prog PlayerProcessSingleVLCSW unit :=
  emit (LogDebug "Restarting playback...") ;;
  emit BaseStop ;;
  w <- get ;;
  emit (CmdSend "load_video" [media_input w]).

Definition load_video_st2_set_parsed_media : prog PlayerProcessSingleVLCSW unit :=
  w <- get ;;
  match media_track w with
  | Some _ => _init_video_decoder
  | None => ret tt
  end ;;
  emit (Super "load_video_st2_set_parsed_media").

Definition load_video_st4_loaded : prog PlayerProcessSingleVLCSW unit :=
  w <- get ;;
  if negb (_is_decoder_initialized w) then
    (* Since we need metadata to allocate video buffer, restart is required *)
    _restart_playback
  else
    emit (Super "load_video_st4_loaded").

Definition play : prog PlayerProcessSingleVLCSW unit :=
  on_decoder (modify (set_is_paused false)) ;;
  emit (Super "play").

Definition set_pause (is_paused : bool) : prog PlayerProcessSingleVLCSW unit :=
  on_decoder (modify (set_is_paused is_paused)) ;;
  emit (Super "set_pause").

(** What reaches the worker once its thread runs: the commands of the
    command loop, the media events through which the base class calls the two
    overridden load steps (it stores the parsed track first), and the frames
    the native decoder delivers through the callbacks. *)
Inductive worker_event : Type :=
| LoadVideo (media : string)
| MediaParsed (track : option (Z * Z))
| MediaLoaded
| CmdPlay
| CmdSetPause (is_paused : bool)
| Frame (data : list Byte.byte)
| CmdCleanup.

#[global] Instance worker_event_eq_dec : EqDecision worker_event.
Proof. solve_decision. Defined.

Definition worker_step (ev : worker_event) : prog PlayerProcessSingleVLCSW unit :=
  match ev with
  | LoadVideo media => modify (set_media_input media) ;; emit (Super "load_video")
  | MediaParsed track => modify (set_media_track track) ;; load_video_st2_set_parsed_media
  | MediaLoaded => load_video_st4_loaded
  | CmdPlay => play
  | CmdSetPause b => set_pause b
  | Frame data => on_decoder (deliver_frame data)
  | CmdCleanup => cleanup
  end.

Fixpoint worker_run (evs : list worker_event) : prog PlayerProcessSingleVLCSW unit :=
  match evs with
  | [] => ret tt
  | ev :: rest => worker_step ev ;; worker_run rest
  end.

(** The worker as its thread finds it after [init_player]. *)
Definition worker_started (player_id : string) (shared_memory : SafeSharedMemory)
    (base_media_options : list string) : PlayerProcessSingleVLCSW :=
  res_state (init_player (PlayerProcessSingleVLCSW_init player_id shared_memory base_media_options)).

(** One stop-and-reload cycle of [media], as it shows in the log. *)
Definition restart_cycle (media : string) : list event :=
  [LogDebug "Restarting playback..."; BaseStop; CmdSend "load_video" [media]].

(** The step by which the base class goes on to playing. *)
Definition proceed : event := Super "load_video_st4_loaded".

Definition stops (log : list event) : nat :=
  length (filter (fun ev => ev = BaseStop) log).

(** Is this the parsed-media event that carries the video dimensions? *)
Definition has_dimensions (ev : worker_event) : bool :=
  match ev with
  | MediaParsed (Some _) => true
  | _ => false
  end.

(** The ready signals that arrive before the dimensions are known. *)
Fixpoint early_ready (evs : list worker_event) : nat :=
  match evs with
  | [] => 0
  | ev :: rest =>
      if has_dimensions ev then 0%nat
      else match ev with
           | MediaLoaded => S (early_ready rest)
           | _ => early_ready rest
           end
  end.

(** ** class VideoDriverVLCSW: the render side *)

Module VideoDriverVLCSW.

(** What [_image_dest] can be given: the black placeholder or the copy of
    a frame. *)
Inductive pixmap : Type :=
| Black (width height : Z)
| Picture (buf : list Byte.byte) (width height : Z).

Record t : Type := Mk
  { _width : option Z;
    _height : option Z;
    _image_dest : option pixmap;          (* the pixmap the item shows *)
    _shared_memory : option SafeSharedMemory;
    _pix : option pixmap }.

Definition set_width (o : option Z) (v : t) : t :=
  Mk o (_height v) (_image_dest v) (_shared_memory v) (_pix v).
Definition set_height (o : option Z) (v : t) : t :=
  Mk (_width v) o (_image_dest v) (_shared_memory v) (_pix v).
Definition set_image_dest (o : option pixmap) (v : t) : t :=
  Mk (_width v) (_height v) o (_shared_memory v) (_pix v).
Definition set_shared_memory (o : option SafeSharedMemory) (v : t) : t :=
  Mk (_width v) (_height v) (_image_dest v) o (_pix v).
Definition set_pix (o : option pixmap) (v : t) : t :=
  Mk (_width v) (_height v) (_image_dest v) (_shared_memory v) o.

Definition init : t :=
  {| _width := None; _height := None; _image_dest := None;
     _shared_memory := None; _pix := None |}.

(** [with self._shared_memory: ...] and other uses of the handle; [None]
    has none of its attributes. *)
Definition on_handle {A} (m : prog SafeSharedMemory A) : prog t A :=
  fun v =>
    match _shared_memory v with
    | None => Result (Raised AttributeError) [] v
    | Some h => zoom (fun _ => h) (fun h' v => set_shared_memory (Some h') v) m v
    end.

(** [handle] is what [self.player.get_player_shared_data()] returns. *)
Definition init_frame (handle : SafeSharedMemory) (width height : Z) : prog t unit :=
  modify (set_shared_memory (Some handle)) ;;
  modify (set_width (Some width)) ;;
  modify (set_height (Some height)) ;;
  emit EmitSetDummyFrame.

Definition set_dummy_frame : prog t unit :=
  v <- get ;;
  w <- number (_width v) ;;
  h <- number (_height v) ;;
  modify (set_image_dest (Some (Black w h))).

Definition process_image : prog t unit :=
  v <- get ;;
  match _shared_memory v with
  | None => ret tt
  | Some _ =>
      px <- try_except
              (px <- on_handle
                       (with_shared_memory
                          (buf <- memory_buf ;;
                           w <- number (_width v) ;;
                           h <- number (_height v) ;;
                           emit (MakeImage w h) ;;
                           ret (Picture buf w h))) ;;
               ret (Some px))
              AttributeError
              ((* Very rare race condition *)
               emit (LogWarning "Shared memory is cleared already") ;;
               ret None) ;;
      match px with
      | None => ret tt
      | Some px =>
          modify (set_pix (Some px)) ;;
          emit EmitImageReady
      end
  end.

Definition image_ready : prog t unit :=
  v <- get ;;
  modify (set_image_dest (_pix v)).

Definition cleanup : prog t unit :=
  v <- get ;;
  match _shared_memory v with
  | Some _ =>
      on_handle (with_shared_memory close) ;;
      modify (set_shared_memory None)
  | None => ret tt
  end ;;
  emit (Super "cleanup") ;;
  emit PlayerCleanup.

End VideoDriverVLCSW.

(** ** new_player *)

(** The instance with the workers it has created: [self._players] is kept by
    the base class [InstanceProcessVLC]. *)
Record instance_with_players : Type := MkWithPlayers
  { instance : InstanceProcessVLCSW;
    _players : gmap string PlayerProcessSingleVLCSW }.

Definition set_instance (p : InstanceProcessVLCSW) (ip : instance_with_players) :=
  MkWithPlayers p (_players ip).
Definition set_players (m : gmap string PlayerProcessSingleVLCSW)
    (ip : instance_with_players) :=
  MkWithPlayers (instance ip) m.

(** The channel object a handle stands for: named as the handle, with the
    lock of the handle's slot. *)
Definition handle_channel (t : list slot) (h : channel_handle) : SafeSharedMemory :=
  SafeSharedMemory_init (h_name h) (default false (ml_lock <$> t !! h_slot h)).

(** [PlayerProcessSingleVLCSW(player_id=..., init_data=..., ...)] as a call:
    the base constructor runs first, the attributes are set, and
    [self.start()] starts the worker's thread.  The object returned has no
    bridge yet: the started thread makes it in [init_player]. *)
Definition PlayerProcessSingleVLCSW_new {S} (player_id : string)
    (shared_memory : SafeSharedMemory) (base_media_options : list string) :
    prog S PlayerProcessSingleVLCSW :=
  emit (Super "__init__") ;;
  let player := PlayerProcessSingleVLCSW_init player_id shared_memory base_media_options in
  emit BaseStart ;;
  ret player.

(** [new_player(player_id, init_data, pipe)]; [base_media_options] are the
    media options the worker's base class starts from. *)
Definition new_player (player_id : string) (base_media_options : list string) :
    prog instance_with_players unit :=
  h <- zoom instance set_instance (get_player_shared_memory player_id) ;;
  ip <- get ;;
  player <- PlayerProcessSingleVLCSW_new player_id
              (handle_channel (_memory_locks (instance ip)) h) base_media_options ;;
  modify (fun ip => set_players (<[player_id:=player]> (_players ip)) ip).

(** ** utils/time_txt.py *)

Module time_txt.

(** The characters [0] and [:]. *)
Definition zero_char : Ascii.ascii := Ascii.ascii_of_nat 48.
Definition colon : Ascii.ascii := Ascii.ascii_of_nat 58.

(** [time.gmtime(seconds)] for a whole number of seconds: the time of day. *)
Record struct_time : Type := MkTime { tm_hour : Z; tm_min : Z; tm_sec : Z }.

Definition gmtime (seconds : Z) : struct_time :=
  {| tm_hour := (seconds mod 86400) / 3600;
     tm_min := (seconds mod 3600) / 60;
     tm_sec := seconds mod 60 |}.

(** [%H], [%M], [%S]: two decimal digits. *)
Definition digit (n : Z) : Ascii.ascii := Ascii.ascii_of_nat (48 + Z.to_nat n).

Definition two_digits (n : Z) : string :=
  String (digit (n / 10)) (String (digit (n mod 10)) "").

(** [time.strftime("%H:%M:%S", t)], [time.strftime("%M:%S", t)] and
    [time.strftime("0:%S", t)]. *)
Definition strftime_HMS (t : struct_time) : string :=
  two_digits (tm_hour t) +:+ ":" +:+ two_digits (tm_min t) +:+ ":" +:+ two_digits (tm_sec t).
Definition strftime_MS (t : struct_time) : string :=
  two_digits (tm_min t) +:+ ":" +:+ two_digits (tm_sec t).
Definition strftime_0S (t : struct_time) : string :=
  "0:" +:+ two_digits (tm_sec t).

(** [str.lstrip(c)] for a single character [c]. *)
Fixpoint lstrip (c : Ascii.ascii) (s : string) : string :=
  match s with
  | String c' rest => if Ascii.eqb c' c then lstrip c rest else s
  | EmptyString => EmptyString
  end.

Definition get_time_txt_short (seconds : Z) : string :=
  if 3600 <? seconds then lstrip zero_char (strftime_HMS (gmtime seconds))
  else if 60 <? seconds then lstrip zero_char (strftime_MS (gmtime seconds))
  else strftime_0S (gmtime seconds).

(** [max_seconds or seconds]: [None] and [0] are both false. *)
Definition seconds_cnt (seconds : Z) (max_seconds : option Z) : Z :=
  match max_seconds with
  | Some m => if m =? 0 then seconds else m
  | None => seconds
  end.

Definition get_time_txt (seconds : Z) (max_seconds : option Z) : string :=
  let seconds_cnt := seconds_cnt seconds max_seconds in
  if 3600 <? seconds_cnt then strftime_HMS (gmtime seconds)
  else if 60 <? seconds_cnt then strftime_MS (gmtime seconds)
  else strftime_0S (gmtime seconds).

(** Reading a time text back: fields of decimal digits separated by colons,
    each field worth sixty of the next. *)
Fixpoint read_fields (s : string) (total field : Z) : Z :=
  match s with
  | EmptyString => total * 60 + field
  | String c rest =>
      if Ascii.eqb c colon then read_fields rest (total * 60 + field) 0
      else read_fields rest total (field * 10 + (Z.of_nat (Ascii.nat_of_ascii c) - 48))
  end.

Definition text_seconds (s : string) : Z := read_fields s 0 0.

End time_txt.

(** ** Notions used in the statements *)

(** The bridge with the lock of its channel free. *)
Definition lock_freed (d : ImageDecoder) : ImageDecoder :=
  set_shared_memory (set_lock false (_shared_memory d)) d.

(** A stopped bridge whose lock is held by the callback in flight, over a
    channel that is already closed. *)
Definition stopped_in_flight : ImageDecoder :=
  set_stopped true (ImageDecoder_init (MkSafeSharedMemory "player" true None)).

(** The bridge as the unlock callback finds it when the decoder has taken the
    lock and written [data]. *)
Definition frame_written (data : list Byte.byte) (d : ImageDecoder) : ImageDecoder :=
  set_shared_memory (native_write data (set_lock true (_shared_memory d))) d.

(** A new bridge over a buffer of 1028 zero bytes, the same bridge once it
    has shown that frame, and the next frame, which differs from it in the
    last four bytes only. *)
Definition still_frame : list Byte.byte := replicate 1028 Byte.x00.
Definition next_frame : list Byte.byte := replicate 1024 Byte.x00 ++ replicate 4 Byte.xff.
Definition new_bridge : ImageDecoder :=
  ImageDecoder_init (MkSafeSharedMemory "player" true (Some still_frame)).
Definition paused_bridge : ImageDecoder :=
  set_prev_frame_head (Some (take 1024 still_frame)) new_bridge.

(** Every slot is either free with no owner or busy with one, the table has
    the size it was built with, and no owner holds two slots. *)
Definition slot_ok (ml : slot) : Prop :=
  (ml_is_busy ml = 0 ∧ arr_value (ml_player_id ml) = "")
  ∨ (ml_is_busy ml = 1 ∧ arr_value (ml_player_id ml) ≠ "").

Definition table_ok (p : InstanceProcessVLCSW) : Prop :=
  length (_memory_locks p) = players_per_instance p
  ∧ Forall slot_ok (_memory_locks p)
  ∧ distinct_owners (_memory_locks p).

(** A pool of two slots, ids of at most two bytes. *)
Definition pool_of_two : InstanceProcessVLCSW := InstanceProcessVLCSW_init 1 2.

Definition slot_of (player_id : string) : slot :=
  {| ml_lock := false; ml_is_busy := 1; ml_player_id := MkCArray 2 player_id |}.

(** Sequences of operations on [pool_of_two]: the two-slot scenario of the
    specification, a player id claimed twice, and the empty player id. *)
Definition reuse_ops : list pool_op := [Claim "A"; Claim "B"; Release "A"; Claim "C"].
Definition duplicate_ops : list pool_op := [Claim "A"; Claim "A"].
Definition empty_id_ops : list pool_op := [Claim ""].

Definition full_pool : InstanceProcessVLCSW :=
  res_state (pool_run [Claim "A"; Claim "B"] pool_of_two).

(** The worker's bridge exists and its paused flag is set. *)
Definition decoder_paused (w : PlayerProcessSingleVLCSW) : Prop :=
  is_paused <$> decoder w = Some true.

(** The program keeps a property of the object, however it ends. *)
Definition preserves {S A} (P : S -> Prop) (m : prog S A) : Prop :=
  ∀ s, P s -> P (res_state (m s)).

(** Every call the program logs satisfies [Q]. *)
Definition logs_only {S A} (Q : event -> Prop) (m : prog S A) : Prop :=
  ∀ s, Forall Q (res_log (m s)).

(** A call that is neither the inherited stop nor the step to playing. *)
Definition quiet (ev : event) : Prop := ev ≠ BaseStop ∧ ev ≠ proceed.

(** The value of the worker's [_is_decoder_initialized]. *)
Definition flag_is (b : bool) (w : PlayerProcessSingleVLCSW) : Prop :=
  _is_decoder_initialized w = b.

(** A started worker, and three runs of it: the ready signal comes once
    before the dimensions, it comes twice before them, and a paused worker is
    fed frames and pause commands only. *)
Definition worker0 : PlayerProcessSingleVLCSW :=
  worker_started "player" (SafeSharedMemory_init "player" false) [].

Definition one_restart_run : list worker_event :=
  [LoadVideo "clip"; MediaParsed None; MediaLoaded;
   LoadVideo "clip"; MediaParsed (Some (4, 2)); MediaLoaded].

Definition two_restart_run : list worker_event :=
  [LoadVideo "clip"; MediaParsed None; MediaLoaded;
   LoadVideo "clip"; MediaParsed None; MediaLoaded;
   LoadVideo "clip"; MediaParsed (Some (4, 2)); MediaLoaded].

Definition paused_run : list worker_event :=
  [LoadVideo "clip"; MediaParsed (Some (4, 2)); MediaLoaded;
   Frame (replicate 32 Byte.x01); CmdSetPause true; Frame (replicate 32 Byte.x02)].

(** A render side that has shown the placeholder and whose channel has since
    been closed. *)
Definition closed_channel : SafeSharedMemory :=
  res_state (close (MkSafeSharedMemory "player" false (Some (replicate 32 Byte.x00)))).

Definition stale_driver : VideoDriverVLCSW.t :=
  res_state
    (bind (VideoDriverVLCSW.init_frame closed_channel 4 2)
          (fun _ => VideoDriverVLCSW.set_dummy_frame)
          VideoDriverVLCSW.init).

Definition full_pool_of_one : InstanceProcessVLCSW :=
  res_state (pool_run [Claim "A"] (InstanceProcessVLCSW_init 1 1)).

(** The slot a claim of [player_id] writes over the free slot [ml]. *)
Definition claimed_slot (player_id : string) (ml : slot) : slot :=
  MkSlot (ml_lock ml) 1 (MkCArray (arr_size (ml_player_id ml)) (encode player_id)).

(** [i] is the place of the first free slot of the table. *)
Definition first_free (t : list slot) (i : nat) (ml : slot) : Prop :=
  t !! i = Some ml ∧ ml_is_busy ml = 0
  ∧ ∀ j ml', t !! j = Some ml' -> (j < i)%nat -> busy ml'.

(** An id the table can hold as it is: not empty, free of NUL bytes, and no
    longer than the arrays. *)
Definition valid_id (n : nat) (player_id : string) : Prop :=
  player_id ≠ "" ∧ until_nul (encode player_id) = encode player_id
  ∧ (String.length (encode player_id) <= n)%nat.

(** Every slot's id array has [n] bytes. *)
Definition sizes (n : nat) (t : list slot) : Prop :=
  Forall (fun ml => arr_size (ml_player_id ml) = n) t.

(** The bridge a worker gets from [set_frame]: the metadata and the buffer. *)
Definition framed (width height : Z) (m : SafeSharedMemory) (d : ImageDecoder) : ImageDecoder :=
  MkImageDecoder (is_paused d) (_stopped d) (Some (width * 4)) (Some width) (Some height)
    (set_memory (Some (replicate (Z.to_nat (height * (width * 4))) Byte.x00)) m)
    (_prev_frame_head d).

Definition decoder_stopped (w : PlayerProcessSingleVLCSW) : Prop :=
  _stopped <$> decoder w = Some true.

(** A call that neither reads the frame buffer nor notifies the renderer. *)
Definition silent (ev : event) : Prop := ev ≠ FrameReady ∧ ev ≠ ReadHead.

Definition notifications (log : list event) : nat :=
  length (filter (fun ev => ev = FrameReady) log).

(** The worker's bridge is live, not paused, and has its buffer. *)
Definition live_playing (w : PlayerProcessSingleVLCSW) : Prop :=
  ∃ d buf, decoder w = Some d ∧ _stopped d = false ∧ is_paused d = false
           ∧ memory (shared_memory w) = Some buf.

(** The decoder showing its picture again: the two callbacks around a write
    that leaves the buffer as it is. *)
Definition redraw : prog ImageDecoder unit :=
  libvlc_lock_callback ;; libvlc_unlock_callback.

Fixpoint times {S} (n : nat) (m : prog S unit) : prog S unit :=
  match n with
  | O => ret tt
  | S k => m ;; times k m
  end.

(** A started worker whose media has been parsed with a 4x2 track, and an
    open channel holding one 4x2 frame. *)
Definition framed_worker : PlayerProcessSingleVLCSW :=
  res_state (worker_step (MediaParsed (Some (4, 2))) worker0).

Definition open_channel : SafeSharedMemory :=
  MkSafeSharedMemory "player" false (Some (replicate 32 Byte.x07)).


(** * Properties *)

(** ** The method monad *)

Ltac unfold_prog :=
  cbv beta iota zeta delta
    [bind ret raise emit get modify finally try_except suppress zoom
     lock_acquire lock_release on_lock allocate close memory_buf releasing
     with_shared_memory number
     on_shared_memory decoder_lock set_frame attach_media_player
     libvlc_lock_callback _is_frame_changed libvlc_unlock_callback stop
     decoder_write deliver_frame
     res_out res_log res_state].

(** Membership in a concrete log is decided by evaluation. *)
Lemma in_log (ev : event) (log : list event) :
  bool_decide (ev ∈ log) = true -> ev ∈ log.
Proof. apply bool_decide_eq_true_1. Qed.

Lemma not_in_log (ev : event) (log : list event) :
  bool_decide (ev ∈ log) = false -> ev ∉ log.
Proof. apply bool_decide_eq_false_1. Qed.

Lemma bind_returned {S A B} (m : prog S A) (k : A -> prog S B) s a :
  res_out (m s) = Returned a ->
  bind m k s =
    Result (res_out (k a (res_state (m s))))
           (res_log (m s) ++ res_log (k a (res_state (m s))))
           (res_state (k a (res_state (m s)))).
Proof.
  intros H. unfold bind. destruct (m s) as [[a'|e] l s']; cbn in H; [|discriminate].
  injection H as ->. cbn. by destruct (k a s').
Qed.

Lemma bind_raised {S A B} (m : prog S A) (k : A -> prog S B) s e :
  res_out (m s) = Raised e ->
  bind m k s = Result (Raised e) (res_log (m s)) (res_state (m s)).
Proof.
  intros H. unfold bind. destruct (m s) as [[a'|e'] l s']; cbn in H; [discriminate|].
  by injection H as ->.
Qed.

(** ** ImageDecoder *)

Lemma set_frame_run d width height :
  set_frame width height d =
    Result (Returned tt) [Allocate (height * (width * 4))]
      (MkImageDecoder (is_paused d) (_stopped d) (Some (width * 4)) (Some width) (Some height)
         (set_memory (Some (replicate (Z.to_nat (height * (width * 4))) Byte.x00))
            (_shared_memory d))
         (_prev_frame_head d)).
Proof. destruct d. reflexivity. Qed.

(** C7.  [set_frame(width, height)] asks the channel for exactly
    [height * row_size] bytes with [row_size = width * 4], and the buffer it
    gets has that many bytes; the metadata it stores is [(width, height,
    row_size)], the triple [attach_media_player] then passes to
    [video_set_format]; for 640x480 the buffer is 640*4*480 bytes. *)
Theorem set_frame_buffer_size :
  (∀ d width height,
      let r := set_frame width height d in
      let d' := res_state r in
      res_out r = Returned tt
      ∧ res_log r = [Allocate (height * (width * 4))]
      ∧ (∃ buf, memory (_shared_memory d') = Some buf
                ∧ length buf = Z.to_nat (height * (width * 4)))
      ∧ _width d' = Some width ∧ _height d' = Some height
      ∧ _row_size d' = Some (width * 4)
      ∧ attach_media_player d' =
          Result (Returned tt)
            [VideoSetCallbacks; VideoSetFormat "RV32" width height (width * 4)] d')
  ∧ (∀ d, ∃ buf,
        memory (_shared_memory (res_state (set_frame 640 480 d))) = Some buf
        ∧ Z.of_nat (length buf) = 640 * 4 * 480).
Proof.
  split.
  - intros d width height r d'. subst r d'. rewrite set_frame_run.
    cbn [res_out res_log res_state].
    repeat split.
    eexists. split; [reflexivity | apply length_replicate].
  - intros d. rewrite set_frame_run. cbn [res_state _shared_memory set_memory memory].
    eexists. split; [reflexivity |].
    rewrite length_replicate. rewrite Z2Nat.id; [reflexivity | discriminate].
Qed.

(** What the unlock callback does, case by case. *)
Lemma unlock_stopped d :
  _stopped d = true ->
  libvlc_unlock_callback d = Result (Returned tt) [LockRelease] (lock_freed d).
Proof.
  destruct d as [p s r w h [n l m] prev]; cbn; intros ->.
  destruct l; reflexivity.
Qed.

Lemma unlock_playing d :
  _stopped d = false -> is_paused d = false ->
  libvlc_unlock_callback d = Result (Returned tt) [FrameReady; LockRelease] (lock_freed d).
Proof.
  destruct d as [p s r w h [n l m] prev]; cbn; intros -> ->.
  destruct l; reflexivity.
Qed.

Lemma unlock_paused_same d buf :
  _stopped d = false -> is_paused d = true ->
  memory (_shared_memory d) = Some buf ->
  Some (take 1024 buf) = _prev_frame_head d ->
  libvlc_unlock_callback d = Result (Returned tt) [ReadHead; LockRelease] (lock_freed d).
Proof.
  destruct d as [p s r w h [n l m] prev]; cbn; intros -> -> -> <-.
  unfold_prog. cbn [_shared_memory memory _stopped is_paused _prev_frame_head].
  rewrite decide_True by reflexivity.
  destruct l; reflexivity.
Qed.

Lemma unlock_paused_changed d buf :
  _stopped d = false -> is_paused d = true ->
  memory (_shared_memory d) = Some buf ->
  Some (take 1024 buf) ≠ _prev_frame_head d ->
  libvlc_unlock_callback d =
    Result (Returned tt) [ReadHead; FrameReady; LockRelease]
      (lock_freed (set_prev_frame_head (Some (take 1024 buf)) d)).
Proof.
  destruct d as [p s r w h [n l m] prev]; cbn; intros -> -> -> Hne.
  unfold_prog. cbn [_shared_memory memory _stopped is_paused _prev_frame_head].
  rewrite decide_False by assumption.
  destruct l; reflexivity.
Qed.

Lemma unlock_paused_unallocated d :
  _stopped d = false -> is_paused d = true ->
  memory (_shared_memory d) = None ->
  libvlc_unlock_callback d = Result (Raised AttributeError) [LockRelease] (lock_freed d).
Proof.
  destruct d as [p s r w h [n l m] prev]; cbn; intros -> -> ->.
  destruct l; reflexivity.
Qed.

(** The five ways through the callback. *)
Inductive unlock_path (d : ImageDecoder) : result ImageDecoder unit -> Prop :=
| path_stopped :
    _stopped d = true ->
    unlock_path d (Result (Returned tt) [LockRelease] (lock_freed d))
| path_playing :
    _stopped d = false -> is_paused d = false ->
    unlock_path d (Result (Returned tt) [FrameReady; LockRelease] (lock_freed d))
| path_paused_same buf :
    _stopped d = false -> is_paused d = true ->
    memory (_shared_memory d) = Some buf ->
    Some (take 1024 buf) = _prev_frame_head d ->
    unlock_path d (Result (Returned tt) [ReadHead; LockRelease] (lock_freed d))
| path_paused_changed buf :
    _stopped d = false -> is_paused d = true ->
    memory (_shared_memory d) = Some buf ->
    Some (take 1024 buf) ≠ _prev_frame_head d ->
    unlock_path d
      (Result (Returned tt) [ReadHead; FrameReady; LockRelease]
         (lock_freed (set_prev_frame_head (Some (take 1024 buf)) d)))
| path_unallocated :
    _stopped d = false -> is_paused d = true ->
    memory (_shared_memory d) = None ->
    unlock_path d (Result (Raised AttributeError) [LockRelease] (lock_freed d)).

Lemma unlock_paths d : unlock_path d (libvlc_unlock_callback d).
Proof.
  destruct (_stopped d) eqn:Hs.
  { rewrite unlock_stopped by done. by constructor. }
  destruct (is_paused d) eqn:Hp.
  2: { rewrite unlock_playing by done. by constructor. }
  destruct (memory (_shared_memory d)) as [buf|] eqn:Hm.
  2: { rewrite unlock_paused_unallocated by done. by constructor. }
  destruct (decide (Some (take 1024 buf) = _prev_frame_head d)) as [He|Hne].
  - rewrite (unlock_paused_same d buf) by done. by econstructor.
  - rewrite (unlock_paused_changed d buf) by done. by econstructor.
Qed.

(** C5.  On every way out of the unlock callback -- stopped, suppressed while
    paused, notified, or cut short by an exception -- the release of the
    channel's lock is the last thing done, it is done once, and the lock is
    free afterwards; on a stopped bridge the release is all the callback does:
    no read of the buffer, no notification, no attribute changed. *)
Theorem unlock_always_releases (d : ImageDecoder) :
  let r := libvlc_unlock_callback d in
  (∃ before, res_log r = before ++ [LockRelease] ∧ LockRelease ∉ before)
  ∧ lock (_shared_memory (res_state r)) = false
  ∧ (_stopped d = true -> r = Result (Returned tt) [LockRelease] (lock_freed d)).
Proof.
  intros r. subst r.
  destruct (unlock_paths d) as [Hs|Hs Hp|buf Hs Hp Hm He|buf Hs Hp Hm Hne|Hs Hp Hm];
    cbn [res_log res_state]; (split; [|split; [reflexivity|congruence]]).
  - exists []. split; [done|]. by apply not_in_log.
  - exists [FrameReady]. split; [done|]. by apply not_in_log.
  - exists [ReadHead]. split; [done|]. by apply not_in_log.
  - exists [ReadHead; FrameReady]. split; [done|]. by apply not_in_log.
  - exists []. split; [done|]. by apply not_in_log.
Qed.

Lemma unlock_always_releases_witness :
  libvlc_unlock_callback stopped_in_flight
  = Result (Returned tt) [LockRelease] (lock_freed stopped_in_flight).
Proof.
  apply (unlock_always_releases stopped_in_flight). reflexivity.
Defined.

(** ** stop *)

Lemma stop_run d :
  stop d =
    Result (Returned tt) [SetStopped; LockRelease; Close]
      (set_shared_memory (set_memory None (set_lock false (_shared_memory d)))
         (set_stopped true d)).
Proof. destruct d as [p s r w h [n l m] prev]. destruct l; reflexivity. Qed.

(** C6.  [stop()] marks the bridge stopped, then releases the lock, then
    closes the channel, and returns normally whether or not the lock was
    held: the [ValueError] that the release of a free lock raises is
    swallowed.  A second [stop()] -- a second release and a second close --
    returns normally as well and changes nothing. *)
Theorem stop_order_and_idempotence (d : ImageDecoder) :
  let r := stop d in
  let d' := res_state r in
  res_out r = Returned tt
  ∧ res_log r = [SetStopped; LockRelease; Close]
  ∧ _stopped d' = true
  ∧ lock (_shared_memory d') = false
  ∧ memory (_shared_memory d') = None
  ∧ res_out (decoder_lock lock_release d') = Raised ValueError
  ∧ stop d' = Result (Returned tt) [SetStopped; LockRelease; Close] d'.
Proof.
  intros r d'. subst r d'. rewrite !stop_run. cbn [res_out res_log res_state].
  destruct d as [p s r w h [n l m] prev]. repeat split.
Qed.

(** ** Frames and the fingerprint *)

Lemma deliver_frame_run data d :
  deliver_frame data d =
    let r := libvlc_unlock_callback (frame_written data d) in
    Result (res_out r) (LockAcquire :: res_log r) (res_state r).
Proof.
  destruct d as [p s r w h [n l m] prev].
  cbv beta iota zeta delta
    [deliver_frame bind libvlc_lock_callback decoder_lock on_shared_memory on_lock
     zoom lock_acquire decoder_write emit modify frame_written
     _shared_memory set_shared_memory lock set_lock].
  by destruct (libvlc_unlock_callback _) as [[[]|e] lg st].
Qed.

Lemma is_frame_changed_run d buf :
  memory (_shared_memory d) = Some buf ->
  _is_frame_changed d =
    if decide (Some (take 1024 buf) = _prev_frame_head d)
    then Result (Returned false) [ReadHead] d
    else Result (Returned true) [ReadHead] (set_prev_frame_head (Some (take 1024 buf)) d).
Proof.
  destruct d as [p s r w h [n l m] prev]; cbn [_shared_memory memory]; intros ->.
  unfold_prog.
  cbn [_shared_memory memory _prev_frame_head set_shared_memory set_prev_frame_head
       is_paused _stopped _row_size _width _height].
  case_decide; reflexivity.
Qed.





(** C10.  A new bridge retains no fingerprint.  [_is_frame_changed] answers
    true exactly when the head of the buffer differs from what is retained,
    and replaces the retained value in that case only.  So the first frame
    delivered to a new bridge, which is paused, is reported as changed and
    notified. *)
Theorem first_frame_is_notified :
  (∀ shm, _prev_frame_head (ImageDecoder_init shm) = None)
  ∧ (∀ d buf,
       memory (_shared_memory d) = Some buf ->
       let changed := bool_decide (Some (take 1024 buf) ≠ _prev_frame_head d) in
       _is_frame_changed d =
         Result (Returned changed) [ReadHead]
           (if changed then set_prev_frame_head (Some (take 1024 buf)) d else d))
  ∧ (∀ shm width height data,
       let d := res_state (set_frame width height (ImageDecoder_init shm)) in
       is_paused d = true
       ∧ FrameReady ∈ res_log (deliver_frame data d)).
Proof.
  split; [reflexivity|]. split.
  - intros d buf Hm changed. subst changed.
    rewrite (is_frame_changed_run d buf Hm).
    destruct (decide (Some (take 1024 buf) = _prev_frame_head d)) as [He|Hne].
    + rewrite bool_decide_eq_false_2 by (intros Hc; by apply Hc). reflexivity.
    + rewrite bool_decide_eq_true_2 by done. reflexivity.
  - intros shm width height data d. subst d. rewrite set_frame_run.
    cbn [res_state]. split; [reflexivity|].
    rewrite deliver_frame_run. cbn zeta.
    erewrite unlock_paused_changed; [by apply in_log| reflexivity | reflexivity | | ].
    + destruct shm as [n l m]. reflexivity.
    + cbn. discriminate.
Qed.

Lemma first_frame_is_notified_witness :
  _is_frame_changed new_bridge = Result (Returned true) [ReadHead] paused_bridge.
Proof.
  destruct first_frame_is_notified as (_ & Hchanged & _).
  exact (Hchanged new_bridge still_frame eq_refl).
Defined.

(** ** The slot table *)

Lemma init_player_shared_data_run player_id p :
  init_player_shared_data player_id p =
    match list_find (fun ml => ml_is_busy ml = 0) (_memory_locks p) with
    | None => Result (Raised StopIteration) [] p
    | Some (i, ml) =>
        let ml1 := set_is_busy 1 ml in
        let p1 := set_memory_locks (<[i:=ml1]> (_memory_locks p)) p in
        match c_array_set_value (encode player_id) (ml_player_id ml1) with
        | None => Result (Raised ValueError) [] p1
        | Some a =>
            let p2 := set_memory_locks (<[i:=set_player_id a ml1]> (_memory_locks p1)) p1 in
            match list_find (fun ml => arr_value (ml_player_id ml) = encode player_id)
                    (_memory_locks p2) with
            | None => Result (Raised StopIteration) [] p2
            | Some (j, _) =>
                Result (Returned tt) []
                  (set_players_shared_data
                     (<[player_id:=MkHandle player_id j]> (_players_shared_data p2)) p2)
            end
        end
    end.
Proof.
  unfold init_player_shared_data, bind at 1. cbn [get res_out res_state res_log].
  destruct (list_find _ (_memory_locks p)) as [[i ml]|]; [|reflexivity].
  cbn zeta.
  destruct (c_array_set_value _ _) as [a|]; [|reflexivity].
  unfold get_player_shared_memory, get_player_lock, store_slot, bind, modify, get, ret.
  cbn [res_out res_state res_log _memory_locks set_memory_locks].
  destruct (list_find _ _) as [[j ml']|]; reflexivity.
Qed.

Lemma release_player_shared_data_run player_id p :
  release_player_shared_data player_id p =
    match list_find (fun ml => arr_value (ml_player_id ml) = encode player_id)
            (_memory_locks p) with
    | None => Result (Raised StopIteration) [] p
    | Some (i, ml) =>
        let ml1 := set_player_id (MkCArray (arr_size (ml_player_id ml)) "") ml in
        Result (Returned tt) []
          (set_memory_locks (<[i:=set_is_busy 0 ml1]> (<[i:=ml1]> (_memory_locks p))) p)
    end.
Proof.
  unfold release_player_shared_data, get_player_lock, bind, get, ret, raise.
  cbn [res_out res_state res_log].
  destruct (list_find _ (_memory_locks p)) as [[i ml]|]; [|reflexivity].
  cbn [res_out res_state res_log].
  unfold c_array_set_value. rewrite decide_True by (cbn; lia).
  reflexivity.
Qed.

Lemma table_ok_invariant p : table_ok p -> table_invariant p.
Proof.
  intros (Hlen & Hok & Hdist). split; [exact Hdist|]. split.
  - unfold busy_count. rewrite <- Hlen. apply length_filter.
  - intros ml Hml. rewrite Forall_forall in Hok.
    destruct (Hok ml Hml) as [[H0 He]|[H1 Hne]]; split; intros; try done; lia.
Qed.

Lemma table_ok_init n k : table_ok (InstanceProcessVLCSW_init n k).
Proof.
  split; [apply length_replicate|]. split.
  - apply Forall_replicate. left. done.
  - intros i j a b Ha Hb Hbusy. cbn in Ha.
    apply lookup_replicate in Ha as [-> _]. discriminate.
Qed.

Lemma claim_keeps_table_ok player_id p :
  table_ok p -> fresh_id player_id p ->
  completed (init_player_shared_data player_id p) ->
  table_ok (res_state (init_player_shared_data player_id p)).
Proof.
  intros (Hlen & Hok & Hdist) [Hne Hfresh]. unfold completed.
  rewrite Forall_forall in Hfresh.
  rewrite init_player_shared_data_run.
  destruct (list_find _ (_memory_locks p)) as [[i ml]|] eqn:Hfind; [|discriminate].
  cbn zeta. unfold c_array_set_value.
  case_decide as Hlenid; [|discriminate].
  cbn [_memory_locks set_memory_locks].
  rewrite list_insert_insert_eq.
  destruct (list_find _ (<[i:=_]> _)) as [[j ml']|] eqn:Hfound; [|discriminate].
  intros _. cbn [res_state].
  apply list_find_Some in Hfind as (Hi & Hfree & _).
  apply list_find_Some in Hfound as (Hj & Hval & _).
  assert (i < length (_memory_locks p))%nat as Hilt by (by eapply lookup_lt_Some).
  assert (Hforall := Hok). rewrite Forall_forall in Hforall.
  (* the slot found by id is the one just claimed *)
  assert (j = i) as ->.
  { destruct (decide (j = i)) as [|Hji]; [done|exfalso].
    rewrite list_lookup_insert_ne in Hj by done.
    assert (ml' ∈ _memory_locks p) as Hin by (by eapply list_elem_of_lookup_2).
    destruct (Hforall ml' Hin) as [[_ He]|[Hb _]].
    - apply Hne. unfold encode in Hval. congruence.
    - by apply (Hfresh ml' Hin Hb). }
  rewrite list_lookup_insert_eq in Hj by done. injection Hj as <-.
  cbn in Hval.
  split; [|split].
  - cbn. by rewrite length_insert.
  - cbn. apply Forall_insert; [done|]. right. cbn. split; [done|].
    rewrite Hval. exact Hne.
  - cbn. intros a b x y Hx Hy Hbx Hby Hxy.
    destruct (decide (a = i)) as [->|Hai], (decide (b = i)) as [->|Hbi]; [done| | |].
    + exfalso. rewrite list_lookup_insert_eq in Hx by done. injection Hx as <-.
      rewrite list_lookup_insert_ne in Hy by done. cbn in Hxy.
      assert (y ∈ _memory_locks p) as Hin by (by eapply list_elem_of_lookup_2).
      apply (Hfresh y Hin Hby). congruence.
    + exfalso. rewrite list_lookup_insert_eq in Hy by done. injection Hy as <-.
      rewrite list_lookup_insert_ne in Hx by done. cbn in Hxy.
      assert (x ∈ _memory_locks p) as Hin by (by eapply list_elem_of_lookup_2).
      apply (Hfresh x Hin Hbx). congruence.
    + rewrite list_lookup_insert_ne in Hx by done.
      rewrite list_lookup_insert_ne in Hy by done.
      by eapply Hdist.
Qed.

Lemma release_keeps_table_ok player_id p :
  table_ok p ->
  table_ok (res_state (release_player_shared_data player_id p)).
Proof.
  intros (Hlen & Hok & Hdist).
  rewrite release_player_shared_data_run.
  destruct (list_find _ (_memory_locks p)) as [[i ml]|] eqn:Hfind; [|done].
  cbn zeta. cbn [res_state]. rewrite list_insert_insert_eq.
  apply list_find_Some in Hfind as (Hi & _ & _).
  split; [|split]; cbn.
  - by rewrite length_insert.
  - apply Forall_insert; [done|]. left. done.
  - intros a b x y Hx Hy Hbx Hby Hxy.
    destruct (decide (a = i)) as [->|Hai].
    { apply list_lookup_insert_Some in Hx as [(_ & <- & _)|[? _]]; done. }
    destruct (decide (b = i)) as [->|Hbi].
    { apply list_lookup_insert_Some in Hy as [(_ & <- & _)|[? _]]; done. }
    rewrite list_lookup_insert_ne in Hx by done.
    rewrite list_lookup_insert_ne in Hy by done.
    by eapply Hdist.
Qed.

Lemma run_keeps_table_ok ops : ∀ p,
  table_ok p -> fresh_claims ops p -> completed (pool_run ops p) ->
  ∀ k, table_ok (res_state (pool_run (take k ops) p)).
Proof.
  induction ops as [|op rest IH]; intros p Hok Hfresh Hdone k.
  - rewrite take_nil. exact Hok.
  - destruct k as [|k]; [exact Hok|].
    cbn [take pool_run]. destruct Hfresh as [Hop Hrest].
    unfold completed in Hdone. cbn [pool_run] in Hdone.
    destruct (res_out (pool_step op p)) as [[]|e] eqn:Hstep.
    2: { by rewrite (bind_raised _ _ _ _ Hstep) in Hdone. }
    rewrite (bind_returned _ _ _ _ Hstep) in Hdone.
    rewrite (bind_returned _ _ _ _ Hstep). cbn [res_out res_state] in *.
    apply IH; [|exact Hrest|exact Hdone].
    destruct op as [player_id|player_id]; cbn [pool_step] in *.
    + by apply claim_keeps_table_ok.
    + by apply release_keeps_table_ok.
Qed.

Lemma pool_step_size op p :
  players_per_instance (res_state (pool_step op p)) = players_per_instance p.
Proof.
  destruct op as [player_id|player_id]; cbn [pool_step].
  - rewrite init_player_shared_data_run.
    destruct (list_find _ _) as [[i ml]|]; [|done]. cbn zeta.
    destruct (c_array_set_value _ _); [|done].
    destruct (list_find _ _) as [[j ml']|]; done.
  - rewrite release_player_shared_data_run.
    destruct (list_find _ _) as [[i ml]|]; done.
Qed.

Lemma pool_run_size ops : ∀ p,
  players_per_instance (res_state (pool_run ops p)) = players_per_instance p.
Proof.
  induction ops as [|op rest IH]; intros p; [done|].
  cbn [pool_run]. unfold bind.
  destruct (pool_step op p) as [[[]|e] l s'] eqn:Hstep.
  - specialize (IH s'). destruct (pool_run rest s') as [o l' s'']. cbn in *.
    rewrite IH. by rewrite <- (pool_step_size op p), Hstep.
  - cbn. by rewrite <- (pool_step_size op p), Hstep.
Qed.

(** C3, as the code has it.  Start from the table as constructed and run
    claims and releases that all complete, each claim being made with a fresh
    id (not empty, and not the id of a slot busy at that moment).  Then after
    every operation: no two busy slots carry the same player id, the busy
    slots are no more than the size the table was built with -- which never
    changes --, and a slot's player id is empty exactly when its [is_busy] is
    0. *)
Theorem slot_table_invariant (PLAYER_ID_LENGTH n : nat) (ops : list pool_op) :
  let p0 := InstanceProcessVLCSW_init PLAYER_ID_LENGTH n in
  fresh_claims ops p0 ->
  completed (pool_run ops p0) ->
  ∀ k,
    let p := res_state (pool_run (take k ops) p0) in
    table_invariant p
    ∧ players_per_instance p = n
    ∧ length (_memory_locks p) = n.
Proof.
  intros p0 Hfresh Hdone k p.
  assert (table_ok p) as Hok.
  { apply run_keeps_table_ok; [apply table_ok_init|done|done]. }
  assert (players_per_instance p = n) as Hn by apply pool_run_size.
  split; [by apply table_ok_invariant|]. split; [done|].
  destruct Hok as (Hlen & _). by rewrite Hlen.
Qed.

Lemma slot_table_invariant_witness :
  table_invariant (res_state (pool_run reuse_ops pool_of_two)).
Proof.
  refine (proj1 (slot_table_invariant 1 2 reuse_ops _ _ 4)).
  - unfold reuse_ops, fresh_claims, holds_along, fresh_id.
    repeat split; try discriminate.
    all: vm_compute; repeat constructor; discriminate.
  - vm_compute. reflexivity.
Defined.

(** C3, as stated, fails: nothing in the table's code looks at the ids
    already held.  Claiming the id "A" twice in a table of two completes
    within capacity and leaves two busy slots with the same player id;
    claiming the empty id leaves a busy slot whose player id is empty. *)
Lemma duplicate_or_empty_id_breaks_invariant :
  (completed (pool_run duplicate_ops pool_of_two)
   ∧ within_capacity duplicate_ops pool_of_two
   ∧ _memory_locks (res_state (pool_run duplicate_ops pool_of_two))
     = [slot_of "A"; slot_of "A"]
   ∧ ¬ table_invariant (res_state (pool_run duplicate_ops pool_of_two)))
  ∧ (completed (pool_run empty_id_ops pool_of_two)
     ∧ within_capacity empty_id_ops pool_of_two
     ∧ _memory_locks (res_state (pool_run empty_id_ops pool_of_two))
       = [slot_of ""; MkSlot false 0 (MkCArray 2 "")]
     ∧ ¬ table_invariant (res_state (pool_run empty_id_ops pool_of_two))).
Proof.
  assert (_memory_locks (res_state (pool_run duplicate_ops pool_of_two))
          = [slot_of "A"; slot_of "A"]) as Hdup by (vm_compute; reflexivity).
  assert (_memory_locks (res_state (pool_run empty_id_ops pool_of_two))
          = [slot_of ""; MkSlot false 0 (MkCArray 2 "")]) as Hemp by (vm_compute; reflexivity).
  split; (split; [vm_compute; reflexivity|]); (split; [|split; [done|]]).
  - vm_compute. repeat split; lia.
  - intros (Hdist & _). rewrite Hdup in Hdist.
    by specialize (Hdist 0%nat 1%nat (slot_of "A") (slot_of "A") eq_refl eq_refl eq_refl eq_refl eq_refl).
  - vm_compute. repeat split; lia.
  - intros (_ & _ & Hfree). rewrite Hemp in Hfree.
    assert (slot_of "" ∈ [slot_of ""; MkSlot false 0 (MkCArray 2 "")]) as Hin by apply list_elem_of_here.
    by apply Hfree in Hin as [Hin _]; specialize (Hin eq_refl).
Qed.

(** C4.  With every slot busy, [init_player_shared_data] raises to its
    caller -- the [StopIteration] of the exhausted scan --, having taken no
    lock and made no call, and leaves the instance, slot table included, as it
    was. *)
Theorem claim_on_full_table (p : InstanceProcessVLCSW) (player_id : string) :
  Forall (fun ml => ml_is_busy ml = 1) (_memory_locks p) ->
  init_player_shared_data player_id p = Result (Raised StopIteration) [] p.
Proof.
  intros Hfull. rewrite init_player_shared_data_run.
  destruct (list_find _ _) as [[i ml]|] eqn:Hfind; [|done].
  apply list_find_Some in Hfind as (Hi & Hfree & _).
  rewrite Forall_forall in Hfull.
  assert (ml_is_busy ml = 1) by (eapply Hfull, list_elem_of_lookup_2, Hi). lia.
Qed.

Lemma claim_on_full_table_witness :
  init_player_shared_data "C" full_pool = Result (Raised StopIteration) [] full_pool.
Proof.
  apply claim_on_full_table. vm_compute. repeat constructor.
Defined.

(** The two-slot scenario of the specification. *)
Example two_slots_scenario :
  completed (pool_run [Claim "A"; Claim "B"] pool_of_two)
  ∧ res_out (pool_run [Claim "A"; Claim "B"; Claim "C"] pool_of_two) = Raised StopIteration
  ∧ _memory_locks (res_state (pool_run [Claim "A"; Claim "B"; Release "A"; Claim "C"] pool_of_two))
    = [slot_of "C"; slot_of "B"].
Proof. vm_compute. repeat split. Qed.

(** ** The worker *)

Section Preservation.
Context {S : Type} (P : S -> Prop).

Lemma preserves_ret {A} (a : A) : preserves P (ret a).
Proof. by intros s. Qed.

Lemma preserves_get : preserves P get.
Proof. by intros s. Qed.

Lemma preserves_raise {A} e : preserves P (@raise S A e).
Proof. by intros s. Qed.

Lemma preserves_emit ev : preserves P (emit ev).
Proof. by intros s. Qed.

Lemma preserves_modify f : (∀ s, P s -> P (f s)) -> preserves P (modify f).
Proof. intros Hf s. apply Hf. Qed.

Lemma preserves_bind {A B} (m : prog S A) (k : A -> prog S B) :
  preserves P m -> (∀ a, preserves P (k a)) -> preserves P (bind m k).
Proof.
  intros Hm Hk s Hs. unfold bind. specialize (Hm s Hs).
  destruct (m s) as [[a|e] l s']; cbn in *; [|done].
  specialize (Hk a s' Hm). by destruct (k a s').
Qed.
End Preservation.

Lemma unlock_keeps_paused d :
  is_paused (res_state (libvlc_unlock_callback d)) = is_paused d.
Proof. by destruct (unlock_paths d). Qed.

Lemma deliver_keeps_paused data d :
  is_paused (res_state (deliver_frame data d)) = is_paused d.
Proof. rewrite deliver_frame_run. cbn zeta. cbn [res_state]. by rewrite unlock_keeps_paused. Qed.

Lemma attach_keeps_state d : res_state (attach_media_player d) = d.
Proof. destruct d as [p s [r|] [w|] [h|] m prev]; reflexivity. Qed.

Lemma on_decoder_state {A} (m : prog ImageDecoder A) w d :
  decoder w = Some d ->
  decoder (res_state (on_decoder m w))
  = Some (res_state (m (set_shared_memory (shared_memory w) d))).
Proof.
  intros Hd. unfold on_decoder, zoom. rewrite Hd.
  by destruct (m _).
Qed.

Lemma on_decoder_keeps_paused {A} (m : prog ImageDecoder A) :
  (∀ d, is_paused (res_state (m d)) = is_paused d) ->
  preserves decoder_paused (on_decoder m).
Proof.
  intros Hm w Hw. unfold decoder_paused in *.
  destruct (decoder w) as [d|] eqn:Hd; [|done].
  rewrite (on_decoder_state m w d Hd). cbn in *. rewrite Hm. exact Hw.
Qed.

Lemma step_keeps_paused ev :
  ev ≠ CmdPlay -> ev ≠ CmdSetPause false ->
  preserves decoder_paused (worker_step ev).
Proof.
  intros Hplay Hpause.
  destruct ev as [media|track| | |b|data|]; cbn [worker_step].
  - apply preserves_bind; [by apply preserves_modify|intros; apply preserves_emit].
  - apply preserves_bind; [by apply preserves_modify|intros _].
    unfold load_video_st2_set_parsed_media.
    apply preserves_bind; [apply preserves_get|intros w].
    apply preserves_bind; [|intros; apply preserves_emit].
    destruct (media_track w); [|apply preserves_ret].
    unfold _init_video_decoder.
    apply preserves_bind; [by apply preserves_modify|intros _].
    apply preserves_bind; [apply preserves_get|intros w'].
    destruct (media_track w') as [[width height]|]; [|apply preserves_raise].
    apply preserves_bind.
    { apply on_decoder_keeps_paused. intros d. by rewrite set_frame_run. }
    intros _. apply preserves_bind; [|intros; apply preserves_emit].
    apply on_decoder_keeps_paused. intros d. by rewrite attach_keeps_state.
  - unfold load_video_st4_loaded.
    apply preserves_bind; [apply preserves_get|intros w].
    destruct (negb _); [|apply preserves_emit].
    unfold _restart_playback.
    repeat (apply preserves_bind; [first [apply preserves_emit|apply preserves_get]|intros]).
    apply preserves_emit.
  - done.
  - destruct b; [|done]. unfold set_pause.
    apply preserves_bind; [|intros; apply preserves_emit].
    intros w Hw. unfold decoder_paused in *.
    destruct (decoder w) as [d|] eqn:Hd; [|done].
    by rewrite (on_decoder_state _ w d Hd).
  - apply on_decoder_keeps_paused. intros d. apply deliver_keeps_paused.
  - unfold cleanup.
    apply preserves_bind; [apply preserves_emit|intros _].
    apply preserves_bind.
    { apply on_decoder_keeps_paused. intros d. by rewrite stop_run. }
    intros _. apply preserves_bind; [apply preserves_get|intros; apply preserves_emit].
Qed.

Lemma on_decoder_log {A} (m : prog ImageDecoder A) w d :
  decoder w = Some d ->
  res_log (on_decoder m w) = res_log (m (set_shared_memory (shared_memory w) d)).
Proof.
  intros Hd. unfold on_decoder, zoom. rewrite Hd. by destruct (m _).
Qed.

Lemma run_keeps_paused evs : ∀ w,
  decoder_paused w -> CmdPlay ∉ evs -> CmdSetPause false ∉ evs ->
  decoder_paused (res_state (worker_run evs w)).
Proof.
  induction evs as [|ev rest IH]; intros w Hw Hplay Hpause; [done|].
  apply not_elem_of_cons in Hplay as [? ?], Hpause as [? ?].
  cbn [worker_run]. apply preserves_bind; [|intros _ w' Hw'; by apply IH|done].
  by apply step_keeps_paused.
Qed.

(** The two commands that write the flag. *)
Lemma play_run w d :
  decoder w = Some d ->
  play w =
    Result (Returned tt) [Super "play"]
      (set_decoder (Some (set_is_paused false (set_shared_memory (shared_memory w) d)))
         (set_shm (shared_memory w) w)).
Proof.
  intros Hd. destruct w as [pid shm dec ini opts track input]. cbn in Hd. subst dec.
  reflexivity.
Qed.

Lemma set_pause_run b w d :
  decoder w = Some d ->
  set_pause b w =
    Result (Returned tt) [Super "set_pause"]
      (set_decoder (Some (set_is_paused b (set_shared_memory (shared_memory w) d)))
         (set_shm (shared_memory w) w)).
Proof.
  intros Hd. destruct w as [pid shm dec ini opts track input]. cbn in Hd. subst dec.
  reflexivity.
Qed.

(** C9.  A new bridge is paused, and so is the bridge of a worker whose
    thread has started.  The play command clears the flag and
    [set_pause(is_paused)] writes its argument into it, each before it
    delegates to the base class; and a step of the worker that finds the flag
    set and leaves it cleared is the play command or [set_pause(False)].  So
    as long as neither has come the flag stays set, and a frame delivered to
    the live bridge meanwhile is notified only when the head of the buffer
    differs from the retained fingerprint. *)
Theorem paused_until_play :
  (∀ shm, is_paused (ImageDecoder_init shm) = true)
  ∧ (∀ player_id shm options, decoder_paused (worker_started player_id shm options))
  ∧ (∀ w d,
       decoder w = Some d ->
       let r := worker_step CmdPlay w in
       res_out r = Returned tt ∧ res_log r = [Super "play"]
       ∧ is_paused <$> decoder (res_state r) = Some false)
  ∧ (∀ w d b,
       decoder w = Some d ->
       let r := worker_step (CmdSetPause b) w in
       res_out r = Returned tt ∧ res_log r = [Super "set_pause"]
       ∧ is_paused <$> decoder (res_state r) = Some b)
  ∧ (∀ ev w,
       decoder_paused w -> ¬ decoder_paused (res_state (worker_step ev w)) ->
       ev = CmdPlay ∨ ev = CmdSetPause false)
  ∧ (∀ evs w,
       decoder_paused w -> CmdPlay ∉ evs -> CmdSetPause false ∉ evs ->
       decoder_paused (res_state (worker_run evs w)))
  ∧ (∀ w d buf data,
       decoder w = Some d -> is_paused d = true -> _stopped d = false ->
       memory (shared_memory w) = Some buf ->
       FrameReady ∈ res_log (worker_step (Frame data) w)
       <-> Some (take 1024 (overwrite buf data)) ≠ _prev_frame_head d).
Proof.
  split; [done|]. split; [done|].
  split; [|split; [|split; [|split; [apply run_keeps_paused|]]]].
  - intros w d Hd r. subst r. cbn [worker_step]. by rewrite (play_run w d Hd).
  - intros w d b Hd r. subst r. cbn [worker_step]. by rewrite (set_pause_run b w d Hd).
  - intros ev w Hw Hnot.
    destruct ev as [media|track| | |[]|data|]; auto;
      exfalso; apply Hnot; by apply step_keeps_paused.
  - intros w d buf data Hd Hp Hs Hm. cbn [worker_step].
    rewrite (on_decoder_log _ w d Hd), deliver_frame_run. cbn zeta. cbn [res_log].
    set (d' := frame_written data (set_shared_memory (shared_memory w) d)).
    assert (memory (_shared_memory d') = Some (overwrite buf data)) as Hm'.
    { subst d'. unfold frame_written, native_write. cbn. by rewrite Hm. }
    assert (_prev_frame_head d' = _prev_frame_head d) as Hprev by done.
    rewrite <- Hprev.
    destruct (decide (Some (take 1024 (overwrite buf data)) = _prev_frame_head d')) as [He|Hne].
    + rewrite (unlock_paused_same d' _ Hs Hp Hm' He). cbn [res_log].
      split; [|done]. intros Hin. by apply not_in_log in Hin.
    + rewrite (unlock_paused_changed d' _ Hs Hp Hm' Hne). cbn [res_log].
      split; [done|]. intros _. by apply in_log.
Qed.

Lemma paused_until_play_witness :
  decoder_paused (res_state (worker_run paused_run worker0))
  ∧ is_paused <$> decoder (res_state (worker_step CmdPlay worker0)) = Some false
  ∧ is_paused <$> decoder (res_state (worker_step (CmdSetPause false) worker0)) = Some false.
Proof.
  destruct paused_until_play as (_ & _ & Hplay & Hpause & _ & Hrun & _).
  split; [|split].
  - apply Hrun; [reflexivity| |]; by apply (bool_decide_eq_false_1 _).
  - exact (proj2 (proj2 (Hplay worker0 _ eq_refl))).
  - exact (proj2 (proj2 (Hpause worker0 _ false eq_refl))).
Defined.

(** ** The restart protocol *)

Section Logs.
Context {S : Type} (Q : event -> Prop).

Lemma logs_only_ret {A} (a : A) : logs_only Q (@ret S A a).
Proof. intros s. constructor. Qed.

Lemma logs_only_get : logs_only Q (@get S).
Proof. intros s. constructor. Qed.

Lemma logs_only_raise {A} e : logs_only Q (@raise S A e).
Proof. intros s. constructor. Qed.

Lemma logs_only_modify f : logs_only Q (@modify S f).
Proof. intros s. constructor. Qed.

Lemma logs_only_emit ev : Q ev -> logs_only Q (@emit S ev).
Proof. intros Hev s. by repeat constructor. Qed.

Lemma logs_only_bind {A B} (m : prog S A) (k : A -> prog S B) :
  logs_only Q m -> (∀ a, logs_only Q (k a)) -> logs_only Q (bind m k).
Proof.
  intros Hm Hk s. unfold bind. specialize (Hm s).
  destruct (m s) as [[a|e] l s']; cbn in *; [|done].
  specialize (Hk a s'). destruct (k a s'). cbn in *. by apply Forall_app.
Qed.
End Logs.

Lemma stops_app l1 l2 : stops (l1 ++ l2) = (stops l1 + stops l2)%nat.
Proof. unfold stops. by rewrite filter_app, length_app. Qed.

Lemma quiet_stops log : Forall quiet log -> stops log = 0%nat ∧ proceed ∉ log.
Proof.
  induction 1 as [|ev log [Hstop Hproceed] _ [IHs IHp]]; [split; [done|apply not_elem_of_nil]|].
  split.
  - unfold stops in *. rewrite filter_cons_False by done. exact IHs.
  - apply not_elem_of_cons. split; [done|exact IHp].
Qed.

Lemma on_decoder_logs {A} Q (m : prog ImageDecoder A) :
  logs_only Q m -> logs_only Q (on_decoder m).
Proof.
  intros Hm w. unfold on_decoder, zoom.
  destruct (decoder w) as [d|]; [|constructor].
  specialize (Hm (set_shared_memory (shared_memory w) d)). by destruct (m _).
Qed.

Lemma set_frame_quiet width height : logs_only quiet (set_frame width height).
Proof. intros d. rewrite set_frame_run. by repeat constructor. Qed.

Lemma attach_quiet : logs_only quiet attach_media_player.
Proof.
  intros d. destruct d as [p s [r|] [w|] [h|] m prev]; by repeat constructor.
Qed.

Lemma unlock_quiet : logs_only quiet libvlc_unlock_callback.
Proof. intros d. destruct (unlock_paths d); by repeat constructor. Qed.

Lemma deliver_quiet data : logs_only quiet (deliver_frame data).
Proof.
  intros d. rewrite deliver_frame_run. cbn zeta. cbn [res_log].
  constructor; [done|apply unlock_quiet].
Qed.

Lemma stop_quiet : logs_only quiet stop.
Proof. intros d. rewrite stop_run. by repeat constructor. Qed.

Lemma st4_uninitialized w :
  _is_decoder_initialized w = false ->
  load_video_st4_loaded w = Result (Returned tt) (restart_cycle (media_input w)) w.
Proof. destruct w. cbn. by intros ->. Qed.

Lemma st4_initialized w :
  _is_decoder_initialized w = true ->
  load_video_st4_loaded w = Result (Returned tt) [proceed] w.
Proof. destruct w. cbn. by intros ->. Qed.

Lemma init_video_decoder_quiet : logs_only quiet _init_video_decoder.
Proof.
  unfold _init_video_decoder.
  apply logs_only_bind; [apply logs_only_modify|intros _].
  apply logs_only_bind; [apply logs_only_get|intros w].
  destruct (media_track w) as [[width height]|]; [|apply logs_only_raise].
  apply logs_only_bind; [apply on_decoder_logs, set_frame_quiet|intros _].
  apply logs_only_bind; [apply on_decoder_logs, attach_quiet|intros _].
  by apply logs_only_emit.
Qed.

Lemma st2_quiet : logs_only quiet load_video_st2_set_parsed_media.
Proof.
  unfold load_video_st2_set_parsed_media.
  apply logs_only_bind; [apply logs_only_get|intros w].
  apply logs_only_bind; [|intros _; by apply logs_only_emit].
  destruct (media_track w); [apply init_video_decoder_quiet|apply logs_only_ret].
Qed.

(** Every step but the loaded signal is quiet. *)
Lemma step_quiet ev : ev ≠ MediaLoaded -> logs_only quiet (worker_step ev).
Proof.
  intros Hev. destruct ev as [media|track| | |b|data|]; cbn [worker_step]; [| |done| | | |].
  - apply logs_only_bind; [apply logs_only_modify|intros _; by apply logs_only_emit].
  - apply logs_only_bind; [apply logs_only_modify|intros _; apply st2_quiet].
  - apply logs_only_bind; [apply on_decoder_logs, logs_only_modify|intros _; by apply logs_only_emit].
  - apply logs_only_bind; [apply on_decoder_logs, logs_only_modify|intros _; by apply logs_only_emit].
  - apply on_decoder_logs, deliver_quiet.
  - unfold cleanup.
    apply logs_only_bind; [by apply logs_only_emit|intros _].
    apply logs_only_bind; [apply on_decoder_logs, stop_quiet|intros _].
    apply logs_only_bind; [apply logs_only_get|intros w; by apply logs_only_emit].
Qed.

Lemma bind_emit_state {S A} (m : prog S A) (ev : event) s :
  res_state (bind m (fun _ => emit ev) s) = res_state (m s).
Proof. unfold bind. by destruct (m s) as [[a|e] l s']. Qed.

Lemma on_decoder_flag {A} b (m : prog ImageDecoder A) :
  preserves (flag_is b) (on_decoder m).
Proof.
  intros w Hw. unfold flag_is, on_decoder, zoom in *.
  destruct (decoder w) as [d|]; [|done]. by destruct (m _).
Qed.

Lemma init_video_decoder_rest_initialized :
  preserves (flag_is true)
    (w <- get ;;
     match media_track w with
     | None => raise AttributeError
     | Some (width, height) =>
         on_decoder (set_frame width height) ;;
         on_decoder attach_media_player ;;
         emit (CmdSendInitFrame width height)
     end)%prog.
Proof.
  apply preserves_bind; [apply preserves_get|intros w].
  destruct (media_track w) as [[width height]|]; [|apply preserves_raise].
  apply preserves_bind; [apply on_decoder_flag|intros _].
  apply preserves_bind; [apply on_decoder_flag|intros _].
  apply preserves_emit.
Qed.

Lemma init_video_decoder_initializes w :
  flag_is true (res_state (_init_video_decoder w)).
Proof.
  unfold _init_video_decoder.
  rewrite (bind_returned _ _ _ tt) by done. cbn [res_state].
  by apply init_video_decoder_rest_initialized.
Qed.

Lemma st2_with_track w dims :
  media_track w = Some dims ->
  flag_is true (res_state (load_video_st2_set_parsed_media w)).
Proof.
  intros Htrack. unfold load_video_st2_set_parsed_media.
  rewrite (bind_returned _ _ _ w) by done. cbn [res_state get].
  rewrite Htrack, bind_emit_state. apply init_video_decoder_initializes.
Qed.

Lemma step_keeps_initialized ev : preserves (flag_is true) (worker_step ev).
Proof.
  destruct ev as [media|track| | |b|data|]; cbn [worker_step].
  - apply preserves_bind; [by apply preserves_modify|intros; apply preserves_emit].
  - apply preserves_bind; [by apply preserves_modify|intros _].
    unfold load_video_st2_set_parsed_media.
    apply preserves_bind; [apply preserves_get|intros w].
    apply preserves_bind; [|intros; apply preserves_emit].
    destruct (media_track w); [|apply preserves_ret].
    intros w' _. apply init_video_decoder_initializes.
  - intros w Hw. by rewrite st4_initialized.
  - apply preserves_bind; [apply on_decoder_flag|intros; apply preserves_emit].
  - apply preserves_bind; [apply on_decoder_flag|intros; apply preserves_emit].
  - apply on_decoder_flag.
  - unfold cleanup.
    apply preserves_bind; [apply preserves_emit|intros _].
    apply preserves_bind; [apply on_decoder_flag|intros _].
    apply preserves_bind; [apply preserves_get|intros; apply preserves_emit].
Qed.

(** The parsed-media event that carries dimensions leaves the flag set. *)
Lemma step_with_dimensions ev w :
  has_dimensions ev = true -> flag_is true (res_state (worker_step ev w)).
Proof.
  destruct ev as [media|[dims|]| | |b|data|]; try discriminate. intros _.
  cbn [worker_step].
  rewrite (bind_returned _ _ _ tt) by done. cbn [res_state modify].
  by apply (st2_with_track _ dims).
Qed.

(** Any other step leaves a cleared flag cleared. *)
Lemma step_keeps_uninitialized ev :
  has_dimensions ev = false -> preserves (flag_is false) (worker_step ev).
Proof.
  intros Hev.
  destruct ev as [media|[dims|]| | |b|data|]; try discriminate; cbn [worker_step].
  - apply preserves_bind; [by apply preserves_modify|intros; apply preserves_emit].
  - intros w Hw. by destruct w.
  - intros w Hw. by rewrite st4_uninitialized.
  - apply preserves_bind; [apply on_decoder_flag|intros; apply preserves_emit].
  - apply preserves_bind; [apply on_decoder_flag|intros; apply preserves_emit].
  - apply on_decoder_flag.
  - unfold cleanup.
    apply preserves_bind; [apply preserves_emit|intros _].
    apply preserves_bind; [apply on_decoder_flag|intros _].
    apply preserves_bind; [apply preserves_get|intros; apply preserves_emit].
Qed.

Lemma step_stops_initialized ev w :
  flag_is true w -> stops (res_log (worker_step ev w)) = 0%nat.
Proof.
  intros Hw. destruct (decide (ev = MediaLoaded)) as [->|Hev].
  - cbn [worker_step]. by rewrite st4_initialized.
  - by apply quiet_stops, step_quiet.
Qed.

Lemma run_stops_initialized evs : ∀ w,
  flag_is true w -> stops (res_log (worker_run evs w)) = 0%nat.
Proof.
  induction evs as [|ev rest IH]; intros w Hw; [done|].
  cbn [worker_run].
  pose proof (step_stops_initialized ev w Hw) as Hstep.
  pose proof (step_keeps_initialized ev w Hw) as Hw'.
  destruct (res_out (worker_step ev w)) as [[]|e] eqn:Hout.
  - rewrite (bind_returned _ _ _ tt Hout). cbn [res_log].
    rewrite stops_app, Hstep. by apply IH.
  - by rewrite (bind_raised _ _ _ e Hout).
Qed.

(** What a step adds to the log while the flag is cleared. *)
Lemma step_log_uninitialized ev w :
  flag_is false w -> has_dimensions ev = false ->
  stops (res_log (worker_step ev w)) = (if decide (ev = MediaLoaded) then 1 else 0)%nat
  ∧ proceed ∉ res_log (worker_step ev w).
Proof.
  intros Hw Hev. destruct (decide (ev = MediaLoaded)) as [->|Hne].
  - cbn [worker_step]. rewrite st4_uninitialized by done. cbn [res_log].
    split; [done|]. by apply not_in_log.
  - by apply quiet_stops, step_quiet.
Qed.

Lemma split_after_prefix (l1 l2 before after : list event) ev :
  l1 ++ l2 = before ++ ev :: after -> ev ∉ l1 ->
  ∃ before', before = l1 ++ before' ∧ l2 = before' ++ ev :: after.
Proof.
  intros Heq Hnot. apply app_eq_inv in Heq as [(k & Hl1 & Hk)|(k & Hb & Hl2)].
  - destruct k as [|x k].
    + exists []. rewrite app_nil_r in *. by subst.
    + exfalso. injection Hk as -> _. apply Hnot. subst l1.
      apply elem_of_app. right. apply list_elem_of_here.
  - by exists k.
Qed.

Lemma early_ready_cons ev rest :
  has_dimensions ev = false ->
  early_ready (ev :: rest)
  = ((if decide (ev = MediaLoaded) then 1 else 0) + early_ready rest)%nat.
Proof.
  intros Hev. cbn [early_ready]. rewrite Hev.
  destruct ev as [media|[dims|]| | |b|data|]; try discriminate; case_decide; done.
Qed.

Lemma run_restarts evs : ∀ w,
  flag_is false w -> completed (worker_run evs w) ->
  stops (res_log (worker_run evs w)) = early_ready evs
  ∧ ∀ before after,
      res_log (worker_run evs w) = before ++ proceed :: after ->
      stops before = early_ready evs.
Proof.
  induction evs as [|ev rest IH]; intros w Hw Hdone.
  { split; [done|]. intros before after Heq. by destruct before. }
  unfold completed in Hdone. cbn [worker_run] in *.
  destruct (res_out (worker_step ev w)) as [[]|e] eqn:Hout.
  2: { by rewrite (bind_raised _ _ _ e Hout) in Hdone. }
  rewrite (bind_returned _ _ _ tt Hout) in Hdone.
  rewrite (bind_returned _ _ _ tt Hout). cbn [res_out res_log] in *.
  set (w' := res_state (worker_step ev w)) in *.
  destruct (has_dimensions ev) eqn:Hev.
  - (* the dimensions have come: no restart any more *)
    assert (flag_is true w') as Hw' by (by apply step_with_dimensions).
    assert (ev ≠ MediaLoaded) as Hne by (by intros ->).
    destruct (quiet_stops _ (step_quiet ev Hne w)) as [Hstops _].
    pose proof (run_stops_initialized rest w' Hw') as Hrest.
    assert (early_ready (ev :: rest) = 0%nat) as -> by (cbn; by rewrite Hev).
    split; [by rewrite stops_app, Hstops, Hrest|].
    intros before after Heq.
    assert (stops (before ++ proceed :: after) = 0%nat) as Hall
      by (by rewrite <- Heq, stops_app, Hstops, Hrest).
    rewrite stops_app in Hall. lia.
  - assert (flag_is false w') as Hw' by (by apply step_keeps_uninitialized).
    destruct (step_log_uninitialized ev w Hw Hev) as [Hstops Hproceed].
    destruct (IH w' Hw' Hdone) as [IHstops IHsplit].
    rewrite (early_ready_cons _ _ Hev).
    split; [by rewrite stops_app, Hstops, IHstops|].
    intros before after Heq.
    apply split_after_prefix in Heq as (before' & -> & Hrest); [|done].
    rewrite stops_app, Hstops. f_equal. by eapply IHsplit.
Qed.

(** C1, as the code has it.  If the loaded signal finds the decoder never
    initialized, [load_video_st4_loaded] does not go on to playing: it logs,
    stops, and asks for the same media to be loaded again, and changes
    nothing in the worker.  In a run of a started worker that completes, the
    stops are one for every loaded signal that comes before the parsed-media
    event with the dimensions, and they all come before the worker first
    goes on to playing: at least one when the ready signal precedes the
    dimensions, exactly one when it does so once. *)
Theorem restart_until_initialized :
  (∀ w,
     _is_decoder_initialized w = false ->
     load_video_st4_loaded w = Result (Returned tt) (restart_cycle (media_input w)) w)
  ∧ (∀ evs player_id shm options,
       let r := worker_run evs (worker_started player_id shm options) in
       completed r ->
       stops (res_log r) = early_ready evs
       ∧ ∀ before after,
           res_log r = before ++ proceed :: after -> stops before = early_ready evs).
Proof.
  split; [apply st4_uninitialized|].
  intros evs player_id shm options r Hdone. by apply run_restarts.
Qed.

Lemma restart_until_initialized_witness :
  stops (res_log (worker_run one_restart_run worker0)) = early_ready one_restart_run
  ∧ ∀ before after,
      res_log (worker_run one_restart_run worker0) = before ++ proceed :: after ->
      stops before = early_ready one_restart_run.
Proof.
  destruct restart_until_initialized as [_ Hrun].
  apply (Hrun one_restart_run "player" (SafeSharedMemory_init "player" false) []).
  reflexivity.
Defined.

(** C1, as stated, fails on "exactly one": the worker restarts each time
    the loaded signal finds the decoder uninitialized.  When the media parsed
    after the first reload still has no video track, the second loaded signal
    restarts again, and the worker goes on to playing after two cycles. *)
Lemma two_restarts_before_playing :
  completed (worker_run two_restart_run worker0)
  ∧ early_ready two_restart_run = 2%nat
  ∧ res_log (worker_run two_restart_run worker0)
    = [Super "load_video"; Super "load_video_st2_set_parsed_media"]
      ++ restart_cycle "clip"
      ++ [Super "load_video"; Super "load_video_st2_set_parsed_media"]
      ++ restart_cycle "clip"
      ++ [Super "load_video"; Allocate 32; VideoSetCallbacks;
          VideoSetFormat "RV32" 4 2 16; CmdSendInitFrame 4 2;
          Super "load_video_st2_set_parsed_media"; proceed]
  ∧ stops (res_log (worker_run two_restart_run worker0)) = 2%nat.
Proof. vm_compute. repeat split. Qed.

(** ** More on the slot table *)

Lemma slot_ok_free ml : slot_ok ml -> ml_is_busy ml = 0 ->
  ml = MkSlot (ml_lock ml) 0 (MkCArray (arr_size (ml_player_id ml)) "").
Proof.
  intros [[_ He]|[Hb _]] H0; [|lia].
  destruct ml as [l b [n v]]. cbn in *. by subst.
Qed.

Lemma slot_ok_not_free ml : slot_ok ml -> ml_is_busy ml ≠ 0 -> busy ml.
Proof. intros [[H0 _]|[Hb _]] Hne; [done|exact Hb]. Qed.

(** A completed claim of a fresh id, in full. *)
Lemma claim_fresh_run player_id p :
  table_ok p -> fresh_id player_id p ->
  completed (init_player_shared_data player_id p) ->
  ∃ i ml,
    first_free (_memory_locks p) i ml
    ∧ until_nul (encode player_id) = encode player_id
    ∧ (String.length (encode player_id) <= arr_size (ml_player_id ml))%nat
    ∧ init_player_shared_data player_id p =
        Result (Returned tt) []
          (MkInstance (players_per_instance p)
             (<[i:=claimed_slot player_id ml]> (_memory_locks p))
             (<[player_id:=MkHandle player_id i]> (_players_shared_data p))).
Proof.
  intros (Hlen & Hok & Hdist) [Hne Hfresh]. unfold completed.
  rewrite Forall_forall in Hfresh. assert (Hforall := Hok). rewrite Forall_forall in Hforall.
  rewrite init_player_shared_data_run.
  destruct (list_find _ (_memory_locks p)) as [[i ml]|] eqn:Hfind; [|discriminate].
  cbn zeta. unfold c_array_set_value.
  case_decide as Hlenid; [|discriminate].
  cbn [_memory_locks set_memory_locks].
  rewrite list_insert_insert_eq.
  destruct (list_find _ (<[i:=_]> _)) as [[j ml']|] eqn:Hfound; [|discriminate].
  intros _.
  apply list_find_Some in Hfind as (Hi & Hfree & Hfirst).
  apply list_find_Some in Hfound as (Hj & Hval & _).
  assert (i < length (_memory_locks p))%nat as Hilt by (by eapply lookup_lt_Some).
  assert (j = i) as ->.
  { destruct (decide (j = i)) as [|Hji]; [done|exfalso].
    rewrite list_lookup_insert_ne in Hj by done.
    assert (ml' ∈ _memory_locks p) as Hin by (by eapply list_elem_of_lookup_2).
    destruct (Hforall ml' Hin) as [[_ He]|[Hb _]].
    - apply Hne. unfold encode in Hval. congruence.
    - by apply (Hfresh ml' Hin Hb). }
  rewrite list_lookup_insert_eq in Hj by done. injection Hj as <-.
  cbn in Hval, Hlenid.
  exists i, ml. split; [|split; [done|split; [done|]]].
  - split; [done|]. split; [done|]. intros k mk Hk Hki.
    apply slot_ok_not_free; [eapply Hforall, list_elem_of_lookup_2, Hk|].
    by eapply Hfirst.
  - unfold claimed_slot, set_player_id, set_is_busy. cbn. by rewrite Hval.
Qed.

(** X1.  A completed claim with a fresh id takes the first free slot of the
    table -- every slot before it is busy --, writes [is_busy] 1 and the id
    into it, leaves every other slot as it was, records under the id a handle
    bound to that slot, and makes no call. *)
Theorem claim_takes_first_free_slot (p : InstanceProcessVLCSW) (player_id : string) :
  table_ok p -> fresh_id player_id p ->
  completed (init_player_shared_data player_id p) ->
  ∃ i ml,
    first_free (_memory_locks p) i ml
    ∧ init_player_shared_data player_id p =
        Result (Returned tt) []
          (MkInstance (players_per_instance p)
             (<[i:=claimed_slot player_id ml]> (_memory_locks p))
             (<[player_id:=MkHandle player_id i]> (_players_shared_data p))).
Proof.
  intros Hok Hfresh Hdone.
  destruct (claim_fresh_run player_id p Hok Hfresh Hdone) as (i & ml & Hfirst & _ & _ & Hrun).
  by exists i, ml.
Qed.

(** After a fresh claim the scan by id stops at the claimed slot. *)
Lemma find_claimed player_id t i ml :
  Forall slot_ok t -> player_id ≠ "" ->
  Forall (fun ml => busy ml -> arr_value (ml_player_id ml) ≠ encode player_id) t ->
  first_free t i ml ->
  list_find (fun ml => arr_value (ml_player_id ml) = encode player_id)
    (<[i:=claimed_slot player_id ml]> t)
  = Some (i, claimed_slot player_id ml).
Proof.
  intros Hok Hne Hfresh (Hi & Hfree & Hfirst).
  rewrite Forall_forall in Hok, Hfresh.
  assert (i < length t)%nat as Hilt by (by eapply lookup_lt_Some).
  apply list_find_Some. split; [by apply list_lookup_insert_eq|]. split; [done|].
  intros j mj Hj Hji. rewrite list_lookup_insert_ne in Hj by lia.
  apply Hfresh; [by eapply list_elem_of_lookup_2|by eapply Hfirst].
Qed.

(** X2.  Releasing an id right after its claim completes, makes no call, and
    gives back the slot table as it was before the claim; the handle recorded
    in [_players_shared_data] by the claim is not removed by the release. *)
Theorem claim_then_release_restores_table (p : InstanceProcessVLCSW) (player_id : string) :
  table_ok p -> fresh_id player_id p ->
  completed (init_player_shared_data player_id p) ->
  let p1 := res_state (init_player_shared_data player_id p) in
  let r := release_player_shared_data player_id p1 in
  res_out r = Returned tt
  ∧ res_log r = []
  ∧ _memory_locks (res_state r) = _memory_locks p
  ∧ _players_shared_data (res_state r) = _players_shared_data p1
  ∧ is_Some (_players_shared_data (res_state r) !! player_id).
Proof.
  intros Hok Hfresh Hdone p1 r. subst p1 r.
  destruct (claim_fresh_run player_id p Hok Hfresh Hdone)
    as (i & ml & Hfirst & _ & _ & ->).
  cbn [res_state]. rewrite release_player_shared_data_run.
  cbn [_memory_locks].
  destruct Hok as (_ & Hslots & _). destruct Hfresh as [Hne Hfresh].
  rewrite (find_claimed player_id _ i ml Hslots Hne Hfresh Hfirst).
  cbn zeta. cbn [res_out res_log res_state _memory_locks _players_shared_data
                 set_memory_locks].
  split; [done|]. split; [done|]. split; [|split; [done|]].
  - rewrite !list_insert_insert_eq. destruct Hfirst as (Hi & Hfree & _).
    apply list_insert_id. rewrite Hi. f_equal.
    rewrite Forall_forall in Hslots.
    apply (slot_ok_free ml); [eapply Hslots, list_elem_of_lookup_2, Hi|done].
  - rewrite lookup_insert_eq. by eexists.
Qed.

(** X3.  For an id that no slot carries, both the lookup of the channel and
    the release fail with the [StopIteration] of the exhausted scan and change
    nothing. *)
Theorem unknown_id_is_not_found (p : InstanceProcessVLCSW) (player_id : string) :
  Forall (fun ml => arr_value (ml_player_id ml) ≠ encode player_id) (_memory_locks p) ->
  get_player_shared_memory player_id p = Result (Raised StopIteration) [] p
  ∧ release_player_shared_data player_id p = Result (Raised StopIteration) [] p.
Proof.
  intros Hnone.
  assert (list_find (fun ml => arr_value (ml_player_id ml) = encode player_id)
            (_memory_locks p) = None) as Hfind.
  { apply list_find_None. eapply Forall_impl; [exact Hnone|]. by intros ml H. }
  split.
  - unfold get_player_shared_memory, get_player_lock, bind, get. by rewrite Hfind.
  - rewrite release_player_shared_data_run. by rewrite Hfind.
Qed.

Lemma list_find_insert_other {A} (P : A -> Prop) `{!∀ x, Decision (P x)}
    (t : list A) (i : nat) (x y : A) :
  t !! i = Some y -> ¬ P y -> ¬ P x -> list_find P (<[i:=x]> t) = list_find P t.
Proof.
  intros Hi Hy Hx.
  assert (i < length t)%nat as Hilt by (by eapply lookup_lt_Some).
  destruct (list_find P t) as [[j z]|] eqn:Hfind.
  - apply list_find_Some in Hfind as (Hj & Hz & Hmin).
    assert (j ≠ i) as Hji by (intros ->; congruence).
    apply list_find_Some. split; [by rewrite list_lookup_insert_ne|]. split; [done|].
    intros k w Hk Hkj. destruct (decide (k = i)) as [->|Hki].
    + rewrite list_lookup_insert_eq in Hk by done. by injection Hk as <-.
    + rewrite list_lookup_insert_ne in Hk by done. by eapply Hmin.
  - apply list_find_None in Hfind. apply list_find_None. by apply Forall_insert.
Qed.

Lemma get_player_lock_out player_id p :
  res_out (get_player_lock player_id p) =
    match list_find (fun ml => arr_value (ml_player_id ml) = encode player_id)
            (_memory_locks p) with
    | Some found => Returned found
    | None => Raised StopIteration
    end.
Proof. unfold get_player_lock, bind, get. by destruct (list_find _ _). Qed.

(** X4.  A completed claim with a fresh id, and any release, of one player
    leaves the lookup of every other (non-empty) id as it was: the same slot
    is found, or none is. *)
Theorem other_lookups_are_kept (p : InstanceProcessVLCSW) (player_id other : string) :
  other ≠ "" -> other ≠ player_id ->
  (table_ok p -> fresh_id player_id p ->
   completed (init_player_shared_data player_id p) ->
   res_out (get_player_lock other (res_state (init_player_shared_data player_id p)))
   = res_out (get_player_lock other p))
  ∧ res_out (get_player_lock other (res_state (release_player_shared_data player_id p)))
    = res_out (get_player_lock other p).
Proof.
  intros Hne Hother. split.
  - intros Hok Hfresh Hdone.
    destruct (claim_fresh_run player_id p Hok Hfresh Hdone)
      as (i & ml & (Hi & Hfree & _) & _ & _ & ->).
    rewrite !get_player_lock_out. cbn [res_state _memory_locks].
    rewrite (list_find_insert_other _ _ i _ ml Hi); [done| |].
    + destruct Hok as (_ & Hslots & _). rewrite Forall_forall in Hslots.
      rewrite (slot_ok_free ml); [|eapply Hslots, list_elem_of_lookup_2, Hi|done].
      cbn. unfold encode. congruence.
    + cbn. unfold encode. congruence.
  - rewrite release_player_shared_data_run, !get_player_lock_out.
    destruct (list_find _ (_memory_locks p)) as [[i ml]|] eqn:Hfind; [|done].
    apply list_find_Some in Hfind as (Hi & Hval & _).
    cbn zeta. cbn [res_state _memory_locks set_memory_locks].
    rewrite list_insert_insert_eq.
    rewrite (list_find_insert_other _ _ i _ ml Hi); [done| |].
    + rewrite Hval. unfold encode. congruence.
    + cbn. unfold encode. congruence.
Qed.

(** Counting the busy slots across a write to one slot. *)
Lemma busy_count_insert t i ml ml' :
  t !! i = Some ml ->
  (busy_count (<[i:=ml']> t) + (if decide (busy ml) then 1 else 0)
   = busy_count t + (if decide (busy ml') then 1 else 0))%nat.
Proof.
  intros Hi. unfold busy_count.
  assert (i < length t)%nat as Hilt by (by eapply lookup_lt_Some).
  rewrite insert_take_drop by done.
  rewrite <- (take_drop_middle t i ml Hi) at 3.
  rewrite !filter_app, !filter_cons, !length_app.
  do 2 case_decide; cbn [length]; lia.
Qed.

(** X6.  A claim with an id longer than the slot's array fails with
    [ValueError] after the slot has been marked busy: the first free slot
    stays at [is_busy] 1 with its old player id, the busy count has grown by
    one, and no handle is recorded. *)
Theorem failed_claim_keeps_slot_busy (p : InstanceProcessVLCSW) (player_id : string) i ml :
  first_free (_memory_locks p) i ml ->
  (arr_size (ml_player_id ml) < String.length (encode player_id))%nat ->
  let r := init_player_shared_data player_id p in
  res_out r = Raised ValueError
  ∧ _memory_locks (res_state r) = <[i:=set_is_busy 1 ml]> (_memory_locks p)
  ∧ busy_count (_memory_locks (res_state r)) = S (busy_count (_memory_locks p))
  ∧ _players_shared_data (res_state r) = _players_shared_data p.
Proof.
  intros (Hi & Hfree & Hfirst) Hlong r. subst r.
  rewrite init_player_shared_data_run.
  assert (list_find (fun ml => ml_is_busy ml = 0) (_memory_locks p) = Some (i, ml)) as ->.
  { apply list_find_Some. split; [done|]. split; [done|].
    intros j mj Hj Hji Hz. specialize (Hfirst j mj Hj Hji). unfold busy in Hfirst. lia. }
  cbn zeta. unfold c_array_set_value. rewrite decide_False by (cbn; lia).
  cbn [res_out res_state _memory_locks set_memory_locks _players_shared_data].
  split; [done|]. split; [done|]. split; [|done].
  pose proof (busy_count_insert (_memory_locks p) i ml (set_is_busy 1 ml) Hi) as Hcount.
  rewrite decide_False in Hcount by (unfold busy; lia).
  rewrite decide_True in Hcount by done. lia.
Qed.

Lemma busy_count_all t : Forall busy t <-> busy_count t = length t.
Proof.
  unfold busy_count. induction t as [|ml t IH]; [done|].
  rewrite filter_cons. pose proof (length_filter busy t) as Hle.
  case_decide as Hb; cbn [length].
  - rewrite Forall_cons. split; [intros [_ H]; f_equal; by apply IH|].
    intros [= H]. split; [done|by apply IH].
  - split; [by intros [? _]%Forall_cons|lia].
Qed.

Lemma free_slot_exists t :
  Forall slot_ok t -> (busy_count t < length t)%nat ->
  is_Some (list_find (fun ml => ml_is_busy ml = 0) t).
Proof.
  intros Hok Hlt.
  destruct (list_find _ t) as [found|] eqn:Hfind; [by eexists|exfalso].
  apply list_find_None in Hfind.
  assert (Forall busy t) as Hall.
  { rewrite Forall_forall in *. intros ml Hml.
    by apply slot_ok_not_free; [apply Hok|apply Hfind]. }
  apply busy_count_all in Hall. lia.
Qed.

Lemma full_table_refuses player_id p :
  busy_count (_memory_locks p) = length (_memory_locks p) ->
  init_player_shared_data player_id p = Result (Raised StopIteration) [] p.
Proof.
  intros Hfull%busy_count_all. rewrite init_player_shared_data_run.
  destruct (list_find _ _) as [[i ml]|] eqn:Hfind; [|done].
  apply list_find_Some in Hfind as (Hi & Hfree & _).
  rewrite Forall_forall in Hfull.
  assert (busy ml) as Hb by (eapply Hfull, list_elem_of_lookup_2, Hi).
  unfold busy in Hb. lia.
Qed.

Lemma claim_succeeds n player_id p :
  table_ok p -> sizes n (_memory_locks p) -> valid_id n player_id ->
  (busy_count (_memory_locks p) < length (_memory_locks p))%nat ->
  completed (init_player_shared_data player_id p).
Proof.
  intros (_ & Hok & _) Hsizes (Hne & Hnul & Hlen) Hroom. unfold completed, sizes in *.
  rewrite init_player_shared_data_run.
  destruct (free_slot_exists _ Hok Hroom) as [[i ml] Hfind]. rewrite Hfind.
  apply list_find_Some in Hfind as (Hi & Hfree & _).
  cbn zeta. unfold c_array_set_value.
  rewrite Forall_forall in Hsizes.
  rewrite decide_True
    by (cbn; rewrite (Hsizes ml) by (by eapply list_elem_of_lookup_2); exact Hlen).
  cbn [_memory_locks set_memory_locks]. rewrite list_insert_insert_eq.
  assert (i < length (_memory_locks p))%nat as Hilt by (by eapply lookup_lt_Some).
  set (ml2 := set_player_id _ _).
  assert (ml2 ∈ <[i:=ml2]> (_memory_locks p)) as Hin
    by (eapply list_elem_of_lookup_2; by apply list_lookup_insert_eq).
  by destruct (list_find_elem_of
                 (fun ml => arr_value (ml_player_id ml) = encode player_id) _ ml2 Hin Hnul)
    as [[j mj] ->].
Qed.

Lemma claims_run n ids : ∀ p,
  table_ok p -> sizes n (_memory_locks p) ->
  Forall (valid_id n) ids -> NoDup ids ->
  Forall (fun player_id => fresh_id player_id p) ids ->
  (busy_count (_memory_locks p) + length ids <= length (_memory_locks p))%nat ->
  let r := pool_run (Claim <$> ids) p in
  completed r
  ∧ busy_count (_memory_locks (res_state r)) = (busy_count (_memory_locks p) + length ids)%nat
  ∧ length (_memory_locks (res_state r)) = length (_memory_locks p).
Proof.
  unfold sizes.
  induction ids as [|player_id rest IH]; intros p Hok Hsizes Hvalid Hnodup Hfresh Hroom.
  { cbn. split; [done|]. split; [lia|done]. }
  cbn [fmap list_fmap pool_run length] in *.
  apply Forall_cons in Hvalid as [Hv Hvalid], Hfresh as [Hf Hfresh].
  apply NoDup_cons in Hnodup as [Hnotin Hnodup].
  assert (completed (init_player_shared_data player_id p)) as Hdone
    by (apply (claim_succeeds n); [done|done|done|lia]).
  destruct (claim_fresh_run player_id p Hok Hf Hdone)
    as (i & ml & (Hi & Hfree & Hfirst) & Hnul & Hlen & Hrun).
  pose proof (claim_keeps_table_ok player_id p Hok Hf Hdone) as Hok1.
  rewrite (bind_returned _ _ _ tt) by (cbn [pool_step]; exact Hdone).
  cbn [pool_step res_out res_log res_state]. rewrite Hrun in Hok1 |- *.
  cbn [res_state res_log] in *.
  set (p1 := MkInstance _ _ _) in *.
  assert (i < length (_memory_locks p))%nat as Hilt by (by eapply lookup_lt_Some).
  assert (busy_count (_memory_locks p1) = S (busy_count (_memory_locks p))) as Hcount.
  { pose proof (busy_count_insert (_memory_locks p) i ml (claimed_slot player_id ml) Hi) as Hc.
    rewrite decide_False in Hc by (unfold busy; lia).
    rewrite decide_True in Hc by done. subst p1. cbn [_memory_locks]. lia. }
  assert (length (_memory_locks p1) = length (_memory_locks p)) as Hlength
    by (subst p1; cbn [_memory_locks]; apply length_insert).
  destruct (IH p1) as (Hrest & Hbusy & Hlen').
  - exact Hok1.
  - subst p1. cbn [_memory_locks]. apply Forall_insert; [done|].
    cbn. rewrite Forall_forall in Hsizes. eapply Hsizes, list_elem_of_lookup_2, Hi.
  - exact Hvalid.
  - exact Hnodup.
  - rewrite Forall_forall in Hfresh |- *. intros other Hin.
    destruct (Hfresh other Hin) as [Hne Hother]. split; [done|].
    subst p1. cbn [_memory_locks]. apply Forall_insert; [done|].
    intros _. cbn. unfold encode. intros ->. by apply Hnotin.
  - lia.
  - split; [|split; [lia|lia]].
    unfold completed in *. by destruct (pool_run (Claim <$> rest) p1) as [o l s'].
Qed.

Lemma busy_count_replicate n ml : ¬ busy ml -> busy_count (replicate n ml) = 0%nat.
Proof.
  intros Hml. unfold busy_count. induction n as [|n IH]; [done|].
  cbn [replicate]. by rewrite filter_cons_False.
Qed.

(** X5.  In a new table of [n] slots, claims with distinct ids that are not
    empty, hold no NUL byte and fit the id array all complete as long as they
    are no more than [n], and the busy slots are as many as the claims; once
    there are [n] of them every further claim fails with [StopIteration] and
    changes nothing. *)
Theorem claims_within_capacity_succeed (PLAYER_ID_LENGTH n : nat) (ids : list string) :
  NoDup ids ->
  Forall (valid_id (PLAYER_ID_LENGTH * 2)) ids ->
  (length ids <= n)%nat ->
  let r := pool_run (Claim <$> ids) (InstanceProcessVLCSW_init PLAYER_ID_LENGTH n) in
  completed r
  ∧ busy_count (_memory_locks (res_state r)) = length ids
  ∧ (length ids = n ->
     ∀ player_id,
       init_player_shared_data player_id (res_state r)
       = Result (Raised StopIteration) [] (res_state r)).
Proof.
  intros Hnodup Hvalid Hlen r.
  set (p0 := InstanceProcessVLCSW_init PLAYER_ID_LENGTH n) in *.
  assert (busy_count (_memory_locks p0) = 0%nat) as Hzero
    by (by apply busy_count_replicate).
  assert (length (_memory_locks p0) = n) as Hn by apply length_replicate.
  destruct (claims_run (PLAYER_ID_LENGTH * 2) ids p0) as (Hdone & Hbusy & Hlength).
  - apply table_ok_init.
  - by apply Forall_replicate.
  - exact Hvalid.
  - exact Hnodup.
  - rewrite Forall_forall in Hvalid |- *. intros player_id Hin.
    destruct (Hvalid player_id Hin) as (Hne & _). split; [done|].
    apply Forall_replicate. by intros Hb.
  - lia.
  - fold r in Hdone, Hbusy, Hlength.
    split; [done|]. split; [lia|].
    intros Hfull player_id. apply full_table_refuses. lia.
Qed.

Lemma claims_within_capacity_succeed_witness :
  completed (pool_run (Claim <$> ["A"; "B"]) pool_of_two)
  ∧ busy_count (_memory_locks (res_state (pool_run (Claim <$> ["A"; "B"]) pool_of_two))) = 2%nat.
Proof.
  destruct (claims_within_capacity_succeed 1 2 ["A"; "B"]) as (Hdone & Hbusy & _).
  - by apply (bool_decide_unpack _).
  - repeat constructor; discriminate.
  - cbn. lia.
  - by split.
Defined.

Lemma fresh_in_new_pool player_id n k :
  player_id ≠ "" -> fresh_id player_id (InstanceProcessVLCSW_init n k).
Proof. intros Hne. split; [done|]. apply Forall_replicate. by intros Hb. Qed.

Lemma first_free_new_pool n k :
  first_free (_memory_locks (InstanceProcessVLCSW_init n (S k))) 0
    (MkSlot false 0 (Array_c (n * 2))).
Proof. split; [done|]. split; [done|]. intros j ml' _ Hj. lia. Qed.

Lemma claim_takes_first_free_slot_witness :
  ∃ i ml,
    first_free (_memory_locks pool_of_two) i ml
    ∧ init_player_shared_data "A" pool_of_two =
        Result (Returned tt) []
          (MkInstance (players_per_instance pool_of_two)
             (<[i:=claimed_slot "A" ml]> (_memory_locks pool_of_two))
             (<["A":=MkHandle "A" i]> (_players_shared_data pool_of_two))).
Proof.
  apply claim_takes_first_free_slot.
  - apply table_ok_init.
  - by apply fresh_in_new_pool.
  - vm_compute. reflexivity.
Defined.

Lemma claim_then_release_restores_table_witness :
  _memory_locks
    (res_state (release_player_shared_data "A"
                  (res_state (init_player_shared_data "A" pool_of_two))))
  = _memory_locks pool_of_two.
Proof.
  refine (proj1 (proj2 (proj2
            (claim_then_release_restores_table pool_of_two "A" _ _ _)))).
  - apply table_ok_init.
  - by apply fresh_in_new_pool.
  - vm_compute. reflexivity.
Defined.

Lemma unknown_id_is_not_found_witness :
  release_player_shared_data "B" full_pool_of_one
  = Result (Raised StopIteration) [] full_pool_of_one.
Proof.
  apply unknown_id_is_not_found. vm_compute. repeat constructor; discriminate.
Defined.

Lemma other_lookups_are_kept_witness :
  res_out (get_player_lock "A" (res_state (release_player_shared_data "B" full_pool)))
  = res_out (get_player_lock "A" full_pool).
Proof.
  apply (other_lookups_are_kept full_pool "B" "A"); discriminate.
Defined.

Lemma failed_claim_keeps_slot_busy_witness :
  res_out (init_player_shared_data "ABC" pool_of_two) = Raised ValueError
  ∧ busy_count (_memory_locks (res_state (init_player_shared_data "ABC" pool_of_two)))
    = 1%nat.
Proof.
  destruct (failed_claim_keeps_slot_busy pool_of_two "ABC" 0
              (MkSlot false 0 (Array_c 2))) as (Hout & _ & Hbusy & _).
  - apply (first_free_new_pool 1 1).
  - cbn. lia.
  - by split.
Defined.


Lemma get_player_shared_memory_run player_id p :
  get_player_shared_memory player_id p =
    match list_find (fun ml => arr_value (ml_player_id ml) = encode player_id)
            (_memory_locks p) with
    | Some (i, _) => Result (Returned (MkHandle player_id i)) [] p
    | None => Result (Raised StopIteration) [] p
    end.
Proof.
  unfold get_player_shared_memory, get_player_lock, bind, get.
  by destruct (list_find _ _) as [[i ml]|].
Qed.


(** X15.  After a completed claim with a fresh id, [new_player] for that id
    completes and leaves the slot table alone.  Its only calls are those of
    the worker's constructor: the base constructor, then the start of the
    worker's thread.  It registers under the id the worker as the constructor
    returns it -- no bridge yet, decoder not initialized -- whose channel is
    named by the id and carries the lock of the slot the claim took. *)
Theorem claim_then_new_player (p : InstanceProcessVLCSW)
    (players : gmap string PlayerProcessSingleVLCSW)
    (player_id : string) (options : list string) :
  table_ok p -> fresh_id player_id p ->
  completed (init_player_shared_data player_id p) ->
  let p1 := res_state (init_player_shared_data player_id p) in
  ∃ i ml,
    first_free (_memory_locks p) i ml
    ∧ new_player player_id options (MkWithPlayers p1 players) =
        Result (Returned tt) [Super "__init__"; BaseStart]
          (MkWithPlayers p1
             (<[player_id:=PlayerProcessSingleVLCSW_init player_id
                             (SafeSharedMemory_init player_id (ml_lock ml)) options]>
                players)).
Proof.
  intros Hok Hfresh Hdone p1. subst p1.
  destruct (claim_fresh_run player_id p Hok Hfresh Hdone)
    as (i & ml & Hfirst & _ & _ & ->).
  exists i, ml. split; [done|]. cbn [res_state].
  unfold new_player, bind, zoom. cbn [instance].
  rewrite get_player_shared_memory_run. cbn [_memory_locks].
  destruct Hok as (_ & Hslots & _). destruct Hfresh as [Hne Hfresh].
  rewrite (find_claimed player_id _ i ml Hslots Hne Hfresh Hfirst).
  destruct Hfirst as (Hi & _ & _).
  assert (i < length (_memory_locks p))%nat as Hilt by (by eapply lookup_lt_Some).
  cbn. unfold handle_channel. cbn. by rewrite list_lookup_insert_eq.
Qed.

Lemma claim_then_new_player_witness :
  ∃ i ml,
    first_free (_memory_locks pool_of_two) i ml
    ∧ new_player "A" []
        (MkWithPlayers (res_state (init_player_shared_data "A" pool_of_two)) ∅) =
        Result (Returned tt) [Super "__init__"; BaseStart]
          (MkWithPlayers (res_state (init_player_shared_data "A" pool_of_two))
             (<["A":=PlayerProcessSingleVLCSW_init "A"
                       (SafeSharedMemory_init "A" (ml_lock ml)) []]> ∅)).
Proof.
  apply claim_then_new_player.
  - apply table_ok_init.
  - by apply fresh_in_new_pool.
  - vm_compute. reflexivity.
Defined.

(** ** More on the worker *)

Lemma on_decoder_run {A} (m : prog ImageDecoder A) w d :
  decoder w = Some d ->
  on_decoder m w =
    let r := m (set_shared_memory (shared_memory w) d) in
    Result (res_out r) (res_log r)
      (set_decoder (Some (res_state r)) (set_shm (_shared_memory (res_state r)) w)).
Proof. intros Hd. unfold on_decoder, zoom. rewrite Hd. by destruct (m _). Qed.

Lemma attach_run d width height pitch :
  _width d = Some width -> _height d = Some height -> _row_size d = Some pitch ->
  attach_media_player d =
    Result (Returned tt) [VideoSetCallbacks; VideoSetFormat "RV32" width height pitch] d.
Proof. destruct d. cbn. by intros -> -> ->. Qed.

(** X7.  [load_video_st2_set_parsed_media], by cases.  Without a track it
    only delegates to the base class.  With a track and a bridge it sets the
    flag, sizes the buffer from the track's dimensions, attaches the callbacks
    and the format, sends [init_frame], and only then delegates; the buffer
    shows in the worker's own channel.  With a track but no bridge yet it
    fails with [AttributeError] before any call, the flag already set. *)
Theorem parsed_media_sets_up_decoder (w : PlayerProcessSingleVLCSW) :
  let r := load_video_st2_set_parsed_media w in
  match media_track w, decoder w with
  | None, _ =>
      r = Result (Returned tt) [Super "load_video_st2_set_parsed_media"] w
  | Some (width, height), Some d =>
      r = Result (Returned tt)
            [Allocate (height * (width * 4)); VideoSetCallbacks;
             VideoSetFormat "RV32" width height (width * 4);
             CmdSendInitFrame width height;
             Super "load_video_st2_set_parsed_media"]
            (MkPlayer (player_id w)
               (_shared_memory (framed width height (shared_memory w) d))
               (Some (framed width height (shared_memory w) d))
               true (_media_options w) (media_track w) (media_input w))
  | Some _, None =>
      r = Result (Raised AttributeError) [] (set_is_decoder_initialized true w)
  end.
Proof.
  intros r. subst r.
  destruct w as [pid shm [d|] ini opts [[width height]|] input];
    cbn [media_track decoder]; reflexivity.
Qed.

(** ** After cleanup *)

Lemma on_decoder_keeps_stopped {A} (m : prog ImageDecoder A) :
  (∀ d, _stopped d = true -> _stopped (res_state (m d)) = true) ->
  preserves decoder_stopped (on_decoder m).
Proof.
  intros Hm w Hw. unfold decoder_stopped in *.
  destruct (decoder w) as [d|] eqn:Hd; [|done].
  rewrite (on_decoder_state m w d Hd). cbn in *. f_equal. apply Hm. by injection Hw.
Qed.

Lemma unlock_keeps_stopped d :
  _stopped (res_state (libvlc_unlock_callback d)) = _stopped d.
Proof. by destruct (unlock_paths d). Qed.

Lemma deliver_keeps_stopped data d :
  _stopped (res_state (deliver_frame data d)) = _stopped d.
Proof. rewrite deliver_frame_run. cbn zeta. cbn [res_state]. by rewrite unlock_keeps_stopped. Qed.

Lemma step_keeps_stopped ev : preserves decoder_stopped (worker_step ev).
Proof.
  destruct ev as [media|track| | |b|data|]; cbn [worker_step].
  - apply preserves_bind; [by apply preserves_modify|intros; apply preserves_emit].
  - apply preserves_bind; [by apply preserves_modify|intros _].
    unfold load_video_st2_set_parsed_media.
    apply preserves_bind; [apply preserves_get|intros w].
    apply preserves_bind; [|intros; apply preserves_emit].
    destruct (media_track w); [|apply preserves_ret].
    unfold _init_video_decoder.
    apply preserves_bind; [by apply preserves_modify|intros _].
    apply preserves_bind; [apply preserves_get|intros w'].
    destruct (media_track w') as [[width height]|]; [|apply preserves_raise].
    apply preserves_bind.
    { apply on_decoder_keeps_stopped. intros d. by rewrite set_frame_run. }
    intros _. apply preserves_bind; [|intros; apply preserves_emit].
    apply on_decoder_keeps_stopped. intros d. by rewrite attach_keeps_state.
  - unfold load_video_st4_loaded.
    apply preserves_bind; [apply preserves_get|intros w].
    destruct (negb _); [|apply preserves_emit].
    unfold _restart_playback.
    repeat (apply preserves_bind; [first [apply preserves_emit|apply preserves_get]|intros]).
    apply preserves_emit.
  - apply preserves_bind; [|intros; apply preserves_emit].
    apply on_decoder_keeps_stopped. by intros [].
  - apply preserves_bind; [|intros; apply preserves_emit].
    apply on_decoder_keeps_stopped. by intros [].
  - apply on_decoder_keeps_stopped. intros d. by rewrite deliver_keeps_stopped.
  - unfold cleanup.
    apply preserves_bind; [apply preserves_emit|intros _].
    apply preserves_bind.
    { apply on_decoder_keeps_stopped. intros d. by rewrite stop_run. }
    intros _. apply preserves_bind; [apply preserves_get|intros; apply preserves_emit].
Qed.

Lemma step_silent_but_frames ev :
  (∀ data, ev ≠ Frame data) -> logs_only silent (worker_step ev).
Proof.
  intros Hev. destruct ev as [media|track| | |b|data|]; cbn [worker_step].
  - apply logs_only_bind; [apply logs_only_modify|intros _; by apply logs_only_emit].
  - apply logs_only_bind; [apply logs_only_modify|intros _].
    unfold load_video_st2_set_parsed_media.
    apply logs_only_bind; [apply logs_only_get|intros w].
    apply logs_only_bind; [|intros _; by apply logs_only_emit].
    destruct (media_track w); [|apply logs_only_ret].
    unfold _init_video_decoder.
    apply logs_only_bind; [apply logs_only_modify|intros _].
    apply logs_only_bind; [apply logs_only_get|intros w'].
    destruct (media_track w') as [[width height]|]; [|apply logs_only_raise].
    apply logs_only_bind.
    { apply on_decoder_logs. intros d. rewrite set_frame_run. by repeat constructor. }
    intros _. apply logs_only_bind; [|intros _; by apply logs_only_emit].
    apply on_decoder_logs. intros d.
    destruct d as [? ? [?|] [?|] [?|] ? ?]; by repeat constructor.
  - unfold load_video_st4_loaded.
    apply logs_only_bind; [apply logs_only_get|intros w].
    destruct (negb _); [|by apply logs_only_emit].
    unfold _restart_playback.
    repeat (apply logs_only_bind; [first [by apply logs_only_emit|apply logs_only_get]|intros]).
    by apply logs_only_emit.
  - apply logs_only_bind; [apply on_decoder_logs, logs_only_modify|intros _; by apply logs_only_emit].
  - apply logs_only_bind; [apply on_decoder_logs, logs_only_modify|intros _; by apply logs_only_emit].
  - by destruct (Hev data).
  - unfold cleanup.
    apply logs_only_bind; [by apply logs_only_emit|intros _].
    apply logs_only_bind.
    { apply on_decoder_logs. intros d. rewrite stop_run. by repeat constructor. }
    intros _. apply logs_only_bind; [apply logs_only_get|intros w; by apply logs_only_emit].
Qed.

Lemma step_silent_when_stopped ev w :
  decoder_stopped w -> Forall silent (res_log (worker_step ev w)).
Proof.
  intros Hw. destruct ev as [media|track| | |b|data|];
    try (apply step_silent_but_frames; intros data'; discriminate).
  cbn [worker_step]. unfold decoder_stopped in Hw.
  destruct (decoder w) as [d|] eqn:Hd; [|done].
  rewrite (on_decoder_log _ w d Hd), deliver_frame_run. cbn zeta. cbn [res_log].
  rewrite unlock_stopped by (cbn in *; congruence).
  by repeat constructor.
Qed.

Lemma run_silent_when_stopped evs : ∀ w,
  decoder_stopped w -> Forall silent (res_log (worker_run evs w)).
Proof.
  induction evs as [|ev rest IH]; intros w Hw; [constructor|].
  cbn [worker_run].
  pose proof (step_silent_when_stopped ev w Hw) as Hstep.
  pose proof (step_keeps_stopped ev w Hw) as Hw'.
  destruct (res_out (worker_step ev w)) as [[]|e] eqn:Hout.
  - rewrite (bind_returned _ _ _ tt Hout). cbn [res_log].
    apply Forall_app. split; [done|by apply IH].
  - by rewrite (bind_raised _ _ _ e Hout).
Qed.

Lemma cleanup_run w d :
  decoder w = Some d ->
  cleanup w =
    Result (Returned tt)
      [Super "cleanup"; SetStopped; LockRelease; Close; ReleaseCallback (player_id w)]
      (let m := set_memory None (set_lock false (shared_memory w)) in
       set_decoder (Some (set_shared_memory m (set_stopped true d))) (set_shm m w)).
Proof.
  intros Hd. destruct w as [pid shm dec ini opts track input]. cbn in Hd. subst dec.
  destruct d as [p s r wd ht [n l m] prev], shm as [n' l' m']. destruct l'; reflexivity.
Qed.

(** X8.  [cleanup] of a worker that has its bridge delegates to the base
    class, stops the bridge (mark, release, close) and then calls the release
    callback; after it, whatever events and frames still reach the worker, no
    frame-ready notification is sent and the buffer is never read. *)
Theorem no_notification_after_cleanup (w : PlayerProcessSingleVLCSW) (d : ImageDecoder)
    (evs : list worker_event) :
  decoder w = Some d ->
  let r := cleanup w in
  res_out r = Returned tt
  ∧ res_log r =
      [Super "cleanup"; SetStopped; LockRelease; Close; ReleaseCallback (player_id w)]
  ∧ memory (shared_memory (res_state r)) = None
  ∧ Forall silent (res_log (worker_run evs (res_state r))).
Proof.
  intros Hd r. subst r. rewrite (cleanup_run w d Hd). cbn [res_out res_log res_state].
  split; [done|]. split; [done|]. split; [by destruct w|].
  apply run_silent_when_stopped. by destruct w.
Qed.

(** ** While playing *)

Lemma frame_step_playing data w :
  live_playing w ->
  res_out (worker_step (Frame data) w) = Returned tt
  ∧ res_log (worker_step (Frame data) w) = [LockAcquire; FrameReady; LockRelease]
  ∧ live_playing (res_state (worker_step (Frame data) w)).
Proof.
  intros (d & buf & Hd & Hs & Hp & Hm). cbn [worker_step].
  rewrite (on_decoder_run _ w d Hd). cbn zeta.
  rewrite deliver_frame_run. cbn zeta. cbn [res_out res_log res_state].
  rewrite unlock_playing by done. cbn [res_out res_log res_state].
  split; [done|]. split; [done|].
  exists (lock_freed (frame_written data (set_shared_memory (shared_memory w) d))),
         (overwrite buf data).
  destruct w as [pid shm dec ini opts track input]. cbn in *.
  split; [done|]. split; [done|]. split; [done|]. by rewrite Hm.
Qed.

Lemma frames_run_playing frames : ∀ w,
  live_playing w ->
  completed (worker_run (Frame <$> frames) w)
  ∧ notifications (res_log (worker_run (Frame <$> frames) w)) = length frames.
Proof.
  induction frames as [|data rest IH]; intros w Hw; [done|].
  cbn [fmap list_fmap worker_run length].
  destruct (frame_step_playing data w Hw) as (Hout & Hlog & Hw').
  rewrite (bind_returned _ _ _ tt Hout). cbn [res_out res_log res_state].
  destruct (IH _ Hw') as [Hdone Hcount].
  split; [exact Hdone|].
  unfold notifications in *. rewrite Hlog, filter_app, length_app, Hcount. done.
Qed.

(** X9.  After [play], every frame delivered to a live bridge that has its
    buffer is notified, whatever it holds: the run completes and the
    notifications are as many as the frames. *)
Theorem every_frame_notified_while_playing (w : PlayerProcessSingleVLCSW)
    (d : ImageDecoder) (buf : list Byte.byte) (frames : list (list Byte.byte)) :
  decoder w = Some d -> _stopped d = false ->
  memory (shared_memory w) = Some buf ->
  let r := worker_run (CmdPlay :: (Frame <$> frames)) w in
  completed r ∧ notifications (res_log r) = length frames.
Proof.
  intros Hd Hs Hm r. subst r. cbn [worker_run worker_step].
  assert (play w = Result (Returned tt) [Super "play"]
            (set_decoder (Some (set_is_paused false (set_shared_memory (shared_memory w) d)))
               (set_shm (shared_memory w) w))) as Hplay.
  { unfold play. rewrite (bind_returned _ _ _ tt) by (by rewrite (on_decoder_run _ w d Hd)).
    rewrite (on_decoder_run _ w d Hd). reflexivity. }
  rewrite (bind_returned _ _ _ tt) by (by rewrite Hplay).
  rewrite Hplay. cbn [res_out res_log res_state].
  match goal with |- context [worker_run _ ?w1] =>
    destruct (frames_run_playing frames w1) as [Hdone Hcount] end.
  { eexists _, buf. cbn. by destruct w. }
  split; [exact Hdone|]. exact Hcount.
Qed.

(** ** A still picture while paused *)

Lemma redraw_run d :
  redraw d =
    let r := libvlc_unlock_callback
               (set_shared_memory (set_lock true (_shared_memory d)) d) in
    Result (res_out r) (LockAcquire :: res_log r) (res_state r).
Proof.
  destruct d as [p s r w h [n l m] prev].
  cbv beta iota zeta delta
    [redraw bind libvlc_lock_callback decoder_lock on_shared_memory on_lock
     zoom lock_acquire emit modify _shared_memory set_shared_memory lock set_lock].
  by destruct (libvlc_unlock_callback _) as [[[]|e] lg st].
Qed.

Lemma redraws_silent n : ∀ d buf,
  _stopped d = false -> is_paused d = true ->
  memory (_shared_memory d) = Some buf ->
  _prev_frame_head d = Some (take 1024 buf) ->
  completed (times n redraw d)
  ∧ notifications (res_log (times n redraw d)) = 0%nat.
Proof.
  induction n as [|n IH]; intros d buf Hs Hp Hm Hprev; [done|].
  cbn [times].
  set (d1 := set_shared_memory (set_lock true (_shared_memory d)) d).
  assert (redraw d = Result (Returned tt) [LockAcquire; ReadHead; LockRelease] (lock_freed d1))
    as Hstep.
  { rewrite redraw_run. cbn zeta. fold d1.
    rewrite (unlock_paused_same d1 buf); [done|done|done| |].
    - subst d1. cbn. exact Hm.
    - subst d1. cbn. by rewrite Hprev. }
  rewrite (bind_returned _ _ _ tt) by (by rewrite Hstep).
  rewrite Hstep. cbn [res_out res_log res_state].
  destruct (IH (lock_freed d1) buf) as [Hdone Hcount]; [done..|].
  split; [exact Hdone|].
  unfold notifications in *. rewrite filter_app, length_app, Hcount. done.
Qed.

(** X10.  While the bridge is paused, a picture shown again and again over
    an unchanged buffer is notified at most once: once if the head of the
    buffer differs from the retained fingerprint, not at all if it is the
    same. *)
Theorem still_picture_notifies_at_most_once (n : nat) (d : ImageDecoder)
    (buf : list Byte.byte) :
  _stopped d = false -> is_paused d = true ->
  memory (_shared_memory d) = Some buf ->
  completed (times (S n) redraw d)
  ∧ notifications (res_log (times (S n) redraw d))
    = (if decide (Some (take 1024 buf) = _prev_frame_head d) then 0 else 1)%nat.
Proof.
  intros Hs Hp Hm.
  case_decide as Hhead.
  { by apply (redraws_silent (S n) d buf). }
  cbn [times].
  set (d1 := set_shared_memory (set_lock true (_shared_memory d)) d).
  assert (redraw d = Result (Returned tt) [LockAcquire; ReadHead; FrameReady; LockRelease]
                       (lock_freed (set_prev_frame_head (Some (take 1024 buf)) d1)))
    as Hstep.
  { rewrite redraw_run. cbn zeta. fold d1.
    rewrite (unlock_paused_changed d1 buf); [done|done|done| |].
    - subst d1. cbn. exact Hm.
    - subst d1. cbn. exact Hhead. }
  rewrite (bind_returned _ _ _ tt) by (by rewrite Hstep).
  rewrite Hstep. cbn [res_out res_log res_state].
  destruct (redraws_silent n (lock_freed (set_prev_frame_head (Some (take 1024 buf)) d1)) buf)
    as [Hdone Hcount]; [done..|].
  split; [exact Hdone|].
  unfold notifications in *. rewrite filter_app, length_app, Hcount. done.
Qed.


Lemma no_notification_after_cleanup_witness :
  Forall silent
    (res_log (worker_run [Frame next_frame; CmdPlay; Frame still_frame]
                (res_state (cleanup framed_worker)))).
Proof.
  refine (proj2 (proj2 (proj2
            (no_notification_after_cleanup framed_worker _
               [Frame next_frame; CmdPlay; Frame still_frame] eq_refl)))).
Defined.

Lemma every_frame_notified_while_playing_witness :
  notifications
    (res_log (worker_run (CmdPlay :: (Frame <$> [still_frame; still_frame; next_frame]))
                framed_worker))
  = 3%nat.
Proof.
  refine (proj2 (every_frame_notified_while_playing framed_worker _ _
                   [still_frame; still_frame; next_frame] eq_refl eq_refl eq_refl)).
Defined.

Lemma still_picture_notifies_at_most_once_witness :
  notifications (res_log (times 3 redraw new_bridge)) = 1%nat.
Proof.
  exact (proj2 (still_picture_notifies_at_most_once 2 new_bridge still_frame
                  eq_refl eq_refl eq_refl)).
Defined.

(** ** The render side *)

Import VideoDriverVLCSW.

Lemma process_image_released v h :
  VideoDriverVLCSW._shared_memory v = Some h -> memory h = None ->
  process_image v =
    Result (Returned tt)
      [LockAcquire; LockRelease; LogWarning "Shared memory is cleared already"]
      (VideoDriverVLCSW.set_shared_memory (Some (set_lock false h)) v).
Proof.
  destruct v as [w ht dest shm pix], h as [n l m]. cbn [VideoDriverVLCSW._shared_memory memory].
  intros -> ->. reflexivity.
Qed.

Lemma process_image_no_handle v :
  VideoDriverVLCSW._shared_memory v = None ->
  process_image v = Result (Returned tt) [] v.
Proof.
  destruct v as [w ht dest shm pix]. cbn [VideoDriverVLCSW._shared_memory].
  intros ->. reflexivity.
Qed.

Lemma process_image_frame v h buf width height :
  VideoDriverVLCSW._shared_memory v = Some h -> memory h = Some buf ->
  VideoDriverVLCSW._width v = Some width -> VideoDriverVLCSW._height v = Some height ->
  process_image v =
    Result (Returned tt)
      [LockAcquire; MakeImage width height; LockRelease; EmitImageReady]
      (set_pix (Some (Picture buf width height))
         (VideoDriverVLCSW.set_shared_memory (Some (set_lock false h)) v)).
Proof.
  destruct v as [w ht dest shm pix], h as [n l m].
  cbn [VideoDriverVLCSW._shared_memory memory VideoDriverVLCSW._width VideoDriverVLCSW._height].
  intros -> -> -> ->. reflexivity.
Qed.

(** C8.  When [process_image] runs on a handle whose channel has been
    closed, it returns normally: the missing buffer is caught, a warning is
    logged, the lock taken for the read is released, and neither the pixmap
    kept for display nor the one displayed changes -- no image-ready signal
    is emitted.  When no handle was ever stored it does nothing at all. *)
Theorem released_channel_is_skipped :
  (∀ v h,
     VideoDriverVLCSW._shared_memory v = Some (res_state (close h)) ->
     let r := process_image v in
     res_out r = Returned tt
     ∧ res_log r = [LockAcquire; LockRelease; LogWarning "Shared memory is cleared already"]
     ∧ _pix (res_state r) = _pix v
     ∧ _image_dest (res_state r) = _image_dest v)
  ∧ (∀ v,
       VideoDriverVLCSW._shared_memory v = None ->
       process_image v = Result (Returned tt) [] v).
Proof.
  split; [|apply process_image_no_handle].
  intros v h Hh r. subst r.
  rewrite (process_image_released v _ Hh) by done.
  by destruct v.
Qed.

Lemma released_channel_is_skipped_witness :
  res_out (process_image stale_driver) = Returned tt
  ∧ res_log (process_image stale_driver)
    = [LockAcquire; LockRelease; LogWarning "Shared memory is cleared already"]
  ∧ _pix (res_state (process_image stale_driver)) = _pix stale_driver
  ∧ _image_dest (res_state (process_image stale_driver)) = Some (Black 4 2).
Proof.
  destruct released_channel_is_skipped as [Hstale _].
  apply (Hstale stale_driver (MkSafeSharedMemory "player" false (Some (replicate 32 Byte.x00)))).
  reflexivity.
Defined.

(** ** More on the render side *)


(** X11.  After [init_frame], which asks for the placeholder,
    [set_dummy_frame] shows a black pixmap of the stored size, and
    [process_image] copies the buffer under the channel's lock into a picture
    of the stored size, releases the lock, and only then emits the image-ready
    signal; the picture is what [image_ready] then shows, the display being
    untouched until then. *)
Theorem frame_reaches_display (v : VideoDriverVLCSW.t) (handle : SafeSharedMemory)
    (buf : list Byte.byte) (width height : Z) :
  memory handle = Some buf ->
  let v1 := res_state (init_frame handle width height v) in
  let r := process_image v1 in
  res_log (init_frame handle width height v) = [EmitSetDummyFrame]
  ∧ _image_dest (res_state (set_dummy_frame v1)) = Some (Black width height)
  ∧ res_out r = Returned tt
  ∧ res_log r = [LockAcquire; MakeImage width height; LockRelease; EmitImageReady]
  ∧ _pix (res_state r) = Some (Picture buf width height)
  ∧ _image_dest (res_state r) = _image_dest v
  ∧ lock <$> VideoDriverVLCSW._shared_memory (res_state r) = Some false
  ∧ _image_dest (res_state (image_ready (res_state r))) = Some (Picture buf width height).
Proof.
  intros Hm v1 r. subst r v1.
  assert (res_state (init_frame handle width height v)
          = Mk (Some width) (Some height) (_image_dest v) (Some handle) (_pix v)) as ->
    by (by destruct v).
  rewrite (process_image_frame _ handle buf width height) by done.
  destruct v, handle. repeat split.
Qed.

(** X12.  [cleanup] of the render side closes the channel under its lock if
    it holds one, forgets the handle, keeps the pixmaps, and then delegates
    and asks the worker to clean up.  Afterwards [process_image] does nothing,
    and a second [cleanup] does not touch the channel again. *)
Theorem driver_cleanup_detaches (v : VideoDriverVLCSW.t) :
  let r := VideoDriverVLCSW.cleanup v in
  res_out r = Returned tt
  ∧ res_log r =
      match VideoDriverVLCSW._shared_memory v with
      | Some _ => [LockAcquire; Close; LockRelease]
      | None => []
      end ++ [Super "cleanup"; PlayerCleanup]
  ∧ VideoDriverVLCSW._shared_memory (res_state r) = None
  ∧ _pix (res_state r) = _pix v
  ∧ _image_dest (res_state r) = _image_dest v
  ∧ process_image (res_state r) = Result (Returned tt) [] (res_state r)
  ∧ VideoDriverVLCSW.cleanup (res_state r)
    = Result (Returned tt) [Super "cleanup"; PlayerCleanup] (res_state r).
Proof.
  intros r. subst r. destruct v as [w h dest [[n l m]|] pix]; repeat split.
Qed.

Lemma frame_reaches_display_witness :
  _image_dest
    (res_state (image_ready
       (res_state (process_image
          (res_state (init_frame open_channel 4 2 VideoDriverVLCSW.init))))))
  = Some (Picture (replicate 32 Byte.x07) 4 2).
Proof.
  refine (proj2 (proj2 (proj2 (proj2 (proj2 (proj2 (proj2
            (frame_reaches_display VideoDriverVLCSW.init open_channel
               (replicate 32 Byte.x07) 4 2 eq_refl)))))))).
Defined.

(** ** Time texts *)

Import time_txt.

Example short_examples :
  get_time_txt_short 65 = "1:05" ∧ get_time_txt_short 3725 = "1:02:05"
  ∧ get_time_txt_short 59 = "0:59" ∧ get_time_txt_short 60 = "0:00"
  ∧ get_time_txt_short 3600 = ":00" ∧ get_time_txt 65 (Some 4000) = "00:01:05".
Proof. repeat split. Qed.

Lemma read_digit d rest total field :
  0 <= d <= 9 ->
  read_fields (String (digit d) rest) total field = read_fields rest total (field * 10 + d).
Proof.
  intros Hd.
  assert (d = 0 ∨ d = 1 ∨ d = 2 ∨ d = 3 ∨ d = 4 ∨ d = 5 ∨ d = 6 ∨ d = 7 ∨ d = 8 ∨ d = 9)
    as Hcases by lia.
  repeat destruct Hcases as [->|Hcases]; try subst d; reflexivity.
Qed.

Lemma append_cons c s t : String c s +:+ t = String c (s +:+ t).
Proof. reflexivity. Qed.

Lemma append_empty t : "" +:+ t = t.
Proof. reflexivity. Qed.

Lemma read_two_digits n rest total :
  0 <= n < 100 ->
  read_fields (two_digits n +:+ rest) total 0 = read_fields rest total n.
Proof.
  intros Hn. unfold two_digits. rewrite !append_cons, append_empty.
  rewrite !read_digit.
  - f_equal. pose proof (Z.div_mod n 10). lia.
  - pose proof (Z.mod_pos_bound n 10). lia.
  - split; [apply Z.div_pos; lia|]. apply Z.lt_succ_r, Z.div_lt_upper_bound; lia.
Qed.

Lemma read_colon rest total field :
  read_fields (":" +:+ rest) total field = read_fields rest (total * 60 + field) 0.
Proof. reflexivity. Qed.

Lemma read_two_digits_end n total :
  0 <= n < 100 -> read_fields (two_digits n) total 0 = total * 60 + n.
Proof.
  intros Hn. unfold two_digits. rewrite !read_digit.
  - cbn [read_fields]. pose proof (Z.div_mod n 10). lia.
  - pose proof (Z.mod_pos_bound n 10). lia.
  - split; [apply Z.div_pos; lia|]. apply Z.lt_succ_r, Z.div_lt_upper_bound; lia.
Qed.

Lemma gmtime_bounds seconds :
  0 <= tm_hour (gmtime seconds) < 100
  ∧ 0 <= tm_min (gmtime seconds) < 100
  ∧ 0 <= tm_sec (gmtime seconds) < 100.
Proof.
  unfold gmtime. cbn.
  pose proof (Z.mod_pos_bound seconds 86400).
  pose proof (Z.mod_pos_bound seconds 3600).
  pose proof (Z.mod_pos_bound seconds 60).
  repeat split; try lia.
  - apply Z.div_pos; lia.
  - apply Z.div_lt_upper_bound; lia.
  - apply Z.div_pos; lia.
  - apply Z.div_lt_upper_bound; lia.
Qed.

Lemma read_HMS seconds :
  text_seconds (strftime_HMS (gmtime seconds)) = seconds mod 86400.
Proof.
  destruct (gmtime_bounds seconds) as (Hh & Hm & Hs).
  unfold text_seconds, strftime_HMS.
  rewrite read_two_digits, read_colon, read_two_digits, read_colon, read_two_digits_end
    by done.
  unfold gmtime. cbn.
  pose proof (Z.div_mod (seconds mod 86400) 3600).
  pose proof (Z.div_mod (seconds mod 3600) 60).
  pose proof (Z.mod_pos_bound seconds 86400).
  pose proof (Z.mod_pos_bound seconds 3600).
  assert ((seconds mod 86400) mod 3600 = seconds mod 3600) as Hmod.
  { apply Z.mod_mod_divide. exists 24. lia. }
  assert ((seconds mod 3600) mod 60 = seconds mod 60) as Hmod'.
  { apply Z.mod_mod_divide. exists 60. lia. }
  lia.
Qed.

Lemma read_MS seconds :
  text_seconds (strftime_MS (gmtime seconds)) = seconds mod 3600.
Proof.
  destruct (gmtime_bounds seconds) as (Hh & Hm & Hs).
  unfold text_seconds, strftime_MS.
  rewrite read_two_digits, read_colon, read_two_digits_end by done.
  unfold gmtime. cbn.
  pose proof (Z.div_mod (seconds mod 3600) 60).
  assert ((seconds mod 3600) mod 60 = seconds mod 60) as Hmod'.
  { apply Z.mod_mod_divide. exists 60. lia. }
  lia.
Qed.

Lemma read_0S seconds :
  text_seconds (strftime_0S (gmtime seconds)) = seconds mod 60.
Proof.
  destruct (gmtime_bounds seconds) as (Hh & Hm & Hs).
  unfold text_seconds, strftime_0S.
  change ("0:" +:+ two_digits (tm_sec (gmtime seconds)))
    with (String zero_char (":" +:+ two_digits (tm_sec (gmtime seconds)))).
  change zero_char with (digit 0). rewrite read_digit by lia.
  rewrite read_colon, read_two_digits_end by done. done.
Qed.




(** X14.  The width of [get_time_txt]'s text depends only on
    [max_seconds or seconds] (8, 5 or 4 characters), and for a time within a
    day and not beyond that bound the text reads back as the same number of
    seconds, except when the time is the bound and the bound is exactly 60 or
    3600. *)
Theorem time_text_width_and_value (seconds : Z) (max_seconds : option Z) :
  let cnt := seconds_cnt seconds max_seconds in
  0 <= seconds < 86400 -> seconds <= cnt ->
  String.length (get_time_txt seconds max_seconds)
  = (if 3600 <? cnt then 8%nat else if 60 <? cnt then 5%nat else 4%nat)
  ∧ text_seconds (get_time_txt seconds max_seconds)
    = if decide (seconds = cnt ∧ (cnt = 60 ∨ cnt = 3600)) then 0 else seconds.
Proof.
  intros cnt Hs Hle. unfold get_time_txt. fold cnt.
  destruct (3600 <? cnt) eqn:Hh; [|destruct (60 <? cnt) eqn:Hm].
  - apply Z.ltb_lt in Hh. split; [reflexivity|].
    rewrite read_HMS, decide_False by lia. apply Z.mod_small. lia.
  - apply Z.ltb_ge in Hh. apply Z.ltb_lt in Hm. split; [reflexivity|].
    rewrite read_MS. case_decide as Hedge.
    + assert (seconds = 3600) as -> by lia. reflexivity.
    + apply Z.mod_small. lia.
  - apply Z.ltb_ge in Hm. split; [reflexivity|].
    rewrite read_0S. case_decide as Hedge.
    + assert (seconds = 60) as -> by lia. reflexivity.
    + apply Z.mod_small. lia.
Qed.

Lemma time_text_width_and_value_witness :
  String.length (get_time_txt 65 (Some 4000)) = 8%nat
  ∧ text_seconds (get_time_txt 65 (Some 4000)) = 65.
Proof. apply (time_text_width_and_value 65 (Some 4000)); cbn; lia. Defined.
